(** * expando: expansion of ${var} and ${var|default} references

    A shallow embedding of [expando.go] and the properties its
    specification states about it.

    Modelling choices.
    - A Go [string] is an immutable sequence of bytes: [list ascii].
    - A Go [[]byte] can be [nil]: [option (list ascii)], [None] being the
      nil slice.  Capacities are not modelled.
    - A Go [int] is modelled as [Z].  Every integer the code computes lies
      between [0] and [2 * len tmpl + 5], far from the 64-bit limits for any
      string that fits in memory, so no wrap-around is written out.
    - Indexing [s[i]] and slicing [s[lo:hi]] panic out of range; the
      [outcome] monad carries that panic explicitly.
    - Loops are [Fixpoint]s over a fuel counter that test the loop condition
      before they spend fuel; [OutOfFuel] is shown unreachable.
    - The [Environment] interface is a type class; a provider is a total
      function.  An interface value that may be nil is an [option] of a
      provider: [Expand_nilable] is [Expand] called with such a value, and a
      method call on nil panics.  A lookup that panics by itself is outside
      the model. *)

From Stdlib Require Import ZArith Ascii String List Lia Bool.
From stdpp Require Import base tactics option list gmap strings.

Local Open Scope Z_scope.

(** ** Go values *)

(** [bs "text"] is the Go string literal ["text"]. *)
Definition bs (s : string) : list ascii := list_ascii_of_string s.

Definition len (s : list ascii) : Z := Z.of_nat (length s).

(** What running a piece of Go code yields. *)
Inductive outcome (A : Type) : Type :=
| Ret (a : A)
| Panic
| OutOfFuel.
Arguments Ret {A} a.
Arguments Panic {A}.
Arguments OutOfFuel {A}.

#[global] Instance outcome_ret : MRet outcome := fun A a => Ret a.
#[global] Instance outcome_bind : MBind outcome := fun A B f m =>
  match m with
  | Ret a => f a
  | Panic => Panic
  | OutOfFuel => OutOfFuel
  end.

(** [s[i]] *)
Definition index (s : list ascii) (i : Z) : outcome ascii :=
  if (0 <=? i) && (i <? len s) then
    match s !! Z.to_nat i with
    | Some c => Ret c
    | None => Panic
    end
  else Panic.

(** [s[lo:hi]] *)
Definition slice (s : list ascii) (lo hi : Z) : outcome (list ascii) :=
  if (0 <=? lo) && (lo <=? hi) && (hi <=? len s) then
    Ret (take (Z.to_nat (hi - lo)) (drop (Z.to_nat lo) s))
  else Panic.

(** A byte slice; [None] is [nil]. *)
Definition bytes : Type := option (list ascii).

(** The bytes a slice holds. *)
Definition contents (b : bytes) : list ascii := default [] b.

(** [append(buf, xs...)]: appending nothing to [nil] leaves [nil]. *)
Definition append (buf : bytes) (xs : list ascii) : bytes :=
  match buf with
  | None => match xs with [] => None | _ => Some xs end
  | Some b => Some (b ++ xs)
  end.

(** How a loop with early [return]s ends. *)
Inductive loop_end (R S : Type) : Type :=
| Return (r : R)
| Done (s : S).
Arguments Return {R S} r.
Arguments Done {R S} s.

(** ** Errors *)

Inductive parseErr : Type :=
| errInvalidCharacter
| errInvalidStartingCharacter
| errUnterminated
| errEmptyString
| errInvalidEscape.

Record invalidSyntaxErr : Type := mkInvalidSyntaxErr {
  position : Z;
  value : list ascii;
  err : parseErr
}.

(** ** Providers *)

Class Environment (E : Type) : Type :=
  LookupEnv : E -> list ascii -> list ascii * bool.

Definition MapEnvironment : Type := gmap (list ascii) (list ascii).

#[global] Instance MapEnvironment_env : Environment MapEnvironment :=
  fun m key =>
    match m !! key with
    | Some val => (val, true)
    | None => ([], false)
    end.

Definition envFunc : Type := list ascii -> list ascii * bool.

#[global] Instance envFunc_env : Environment envFunc := fun fn key => fn key.

(** ** Name grammar *)

Definition validNameFirstChar (c : ascii) : bool :=
  Ascii.leb "a"%char c && Ascii.leb c "z"%char
  || Ascii.leb "A"%char c && Ascii.leb c "Z"%char
  || Ascii.eqb c "_"%char.

Definition validNameChar (c : ascii) : bool :=
  validNameFirstChar c || Ascii.leb "0"%char c && Ascii.leb c "9"%char.

(** ** readVarName *)

Definition readResult : Type := list ascii * Z * option parseErr.

(** The [for ; i < len(data); i++] loop of [readVarName]. *)
Fixpoint readVarName_loop (fuel : nat) (data : list ascii) (i : Z)
  : outcome (loop_end readResult Z) :=
  if negb (i <? len data) then Ret (Done i) else
  match fuel with
  | O => OutOfFuel
  | S fuel =>
    c ← index data i;
    if Ascii.eqb c "}"%char || Ascii.eqb c "|"%char then
      name ← slice data 0 i;
      Ret (Return (name, i + 1, None))
    else if negb (validNameChar c) then
      Ret (Return ([], i, Some errInvalidCharacter))
    else readVarName_loop fuel data (i + 1)
  end.

Definition readVarName (data : list ascii) : outcome readResult :=
  if decide (data = []) then Ret ([], 0, Some errUnterminated) else
  c ← index data 0;
  if Ascii.eqb c "}"%char || Ascii.eqb c "|"%char then
    Ret ([], 0, Some errEmptyString)
  else if negb (validNameFirstChar c) then
    Ret ([], 0, Some errInvalidStartingCharacter)
  else
    r ← readVarName_loop (length data) data 1;
    match r with
    | Return res => Ret res
    | Done _ => Ret ([], len data, Some errUnterminated)
    end.

(** ** readDefaultValue *)

(** The first loop: runs until a terminator or an escape is met.  It
    returns early at an unescaped close, and otherwise ends with [i]. *)
Fixpoint readDefaultValue_scan (fuel : nat) (data : list ascii) (i : Z)
    (hasEscape : bool) : outcome (loop_end readResult Z) :=
  if negb (i <? len data) then Ret (Done i) else
  match fuel with
  | O => OutOfFuel
  | S fuel =>
    c ← index data i;
    if Ascii.eqb c "\"%char then
      (* hasEscape = true; break *)
      Ret (Done i)
    else if Ascii.eqb c "}"%char then
      v ← slice data 0 i;
      Ret (Return (v, i + 1, None))
    else if hasEscape then Ret (Done i)
    else readDefaultValue_scan fuel data (i + 1) hasEscape
  end.

(** The second loop, labelled [iter]: un-escapes into [buf].  It ends with
    [(i, buf, foundClose)]. *)
Fixpoint readDefaultValue_iter (fuel : nat) (data : list ascii) (i : Z)
    (buf : list ascii) (escaped : bool)
  : outcome (loop_end readResult (Z * list ascii * bool)) :=
  if negb (i <? len data) then Ret (Done (i, buf, false)) else
  match fuel with
  | O => OutOfFuel
  | S fuel =>
    c ← index data i;
    if Ascii.eqb c "\"%char then
      let buf := if escaped then buf ++ [c] else buf in
      readDefaultValue_iter fuel data (i + 1) buf (negb escaped)
    else if Ascii.eqb c "}"%char && negb escaped then
      Ret (Done (i, buf, true))
    else if escaped && negb (Ascii.eqb c "}"%char) then
      Ret (Return ([], i, Some errInvalidEscape))
    else readDefaultValue_iter fuel data (i + 1) (buf ++ [c]) false
  end.

Definition readDefaultValue (data : list ascii) : outcome readResult :=
  r ← readDefaultValue_scan (length data) data 0 false;
  match r with
  | Return res => Ret res
  | Done i =>
    if i =? len data then Ret ([], i, Some errUnterminated) else
    buf ← slice data 0 i;
    r ← readDefaultValue_iter (length data) data i buf false;
    match r with
    | Return res => Ret res
    | Done (i, buf, foundClose) =>
      if negb foundClose then Ret ([], i, Some errUnterminated)
      else Ret (buf, i + 1, None)
    end
  end.

(** ** varInfo *)

Definition varResult : Type := list ascii * list ascii * Z * option parseErr.

Definition varInfo (data : list ascii) : outcome varResult :=
  '(name, nameLen, e) ← readVarName data;
  match e with
  | Some e => Ret ([], [], nameLen, Some e)
  | None =>
    c ← index data (nameLen - 1);
    if Ascii.eqb c "}"%char then Ret (name, [], nameLen, None) else
    rest ← slice data nameLen (len data);
    '(defaultValue, valLen, e) ← readDefaultValue rest;
    match e with
    | Some e => Ret ([], [], nameLen + valLen, Some e)
    | None => Ret (name, defaultValue, nameLen + valLen, None)
    end
  end.

(** ** Expand *)

Definition expandResult : Type := bytes * option invalidSyntaxErr.

Section Expand.
Context {E : Type} `{Environment E}.

(** The [for j := 0; j < len(tmpl); j++] loop of [Expand]. *)
Fixpoint Expand_loop (fuel : nat) (tmpl : list ascii) (lookupEnv : E)
    (i j : Z) (dollar : bool) (buf : bytes)
  : outcome (loop_end expandResult (Z * bytes)) :=
  if negb (j <? len tmpl) then Ret (Done (i, buf)) else
  match fuel with
  | O => OutOfFuel
  | S fuel =>
    c ← index tmpl j;
    if Ascii.eqb c "$"%char then
      if negb dollar then Expand_loop fuel tmpl lookupEnv i (j + 1) true buf
      else
        lit ← slice tmpl i j;
        Expand_loop fuel tmpl lookupEnv (j + 1) (j + 1) false (append buf lit)
    else if Ascii.eqb c "{"%char then
      if negb dollar then
        Expand_loop fuel tmpl lookupEnv i (j + 1) dollar buf
      else
        let buf := match buf with None => Some [] | Some _ => buf end in
        lit ← slice tmpl i (j - 1);
        let buf := append buf lit in
        data ← slice tmpl (j + 1) (len tmpl);
        '(name, defaultValue, w, e) ← varInfo data;
        match e with
        | Some e =>
          let errStringEnd := j + w + 5 in
          let errStringEnd :=
            if len tmpl <? errStringEnd then len tmpl else errStringEnd in
          v ← slice tmpl (j - 1) errStringEnd;
          Ret (Return (None, Some (mkInvalidSyntaxErr (w + 2) v e)))
        | None =>
          let '(val, ok) := LookupEnv lookupEnv name in
          let buf := if ok then append buf val else append buf defaultValue in
          let j := j + w in
          Expand_loop fuel tmpl lookupEnv (j + 1) (j + 1) false buf
        end
    else Expand_loop fuel tmpl lookupEnv i (j + 1) false buf
  end.

Definition Expand (tmpl : list ascii) (lookupEnv : E) (buf : bytes)
  : outcome expandResult :=
  r ← Expand_loop (length tmpl) tmpl lookupEnv 0 0 false buf;
  match r with
  | Return res => Ret res
  | Done (i, buf) =>
    lit ← slice tmpl i (len tmpl);
    Ret (append buf lit, None)
  end.
End Expand.

Section OS.
(** [os.LookupEnv], the lookup in the environment of the process. *)
Variable os_LookupEnv : list ascii -> list ascii * bool.

Definition OSEnv : envFunc := os_LookupEnv.

Definition ExpandEnv (tmpl : list ascii) (buf : bytes)
  : outcome expandResult :=
  Expand tmpl OSEnv buf.
End OS.

Section Nilable.
Context {E : Type} `{Environment E}.

(** [lookupEnv.LookupEnv(name)] on an interface value: [None] is the nil
    interface, on which the call panics. *)
Definition callLookupEnv (lookupEnv : option E) (name : list ascii)
  : outcome (list ascii * bool) :=
  match lookupEnv with
  | None => Panic
  | Some p => Ret (LookupEnv p name)
  end.

(** The loop of [Expand] when its provider is an interface value that may
    be nil. *)
Fixpoint Expand_nilable_loop (fuel : nat) (tmpl : list ascii)
    (lookupEnv : option E) (i j : Z) (dollar : bool) (buf : bytes)
  : outcome (loop_end expandResult (Z * bytes)) :=
  if negb (j <? len tmpl) then Ret (Done (i, buf)) else
  match fuel with
  | O => OutOfFuel
  | S fuel =>
    c ← index tmpl j;
    if Ascii.eqb c "$"%char then
      if negb dollar then
        Expand_nilable_loop fuel tmpl lookupEnv i (j + 1) true buf
      else
        lit ← slice tmpl i j;
        Expand_nilable_loop fuel tmpl lookupEnv (j + 1) (j + 1) false
          (append buf lit)
    else if Ascii.eqb c "{"%char then
      if negb dollar then
        Expand_nilable_loop fuel tmpl lookupEnv i (j + 1) dollar buf
      else
        let buf := match buf with None => Some [] | Some _ => buf end in
        lit ← slice tmpl i (j - 1);
        let buf := append buf lit in
        data ← slice tmpl (j + 1) (len tmpl);
        '(name, defaultValue, w, e) ← varInfo data;
        match e with
        | Some e =>
          let errStringEnd := j + w + 5 in
          let errStringEnd :=
            if len tmpl <? errStringEnd then len tmpl else errStringEnd in
          v ← slice tmpl (j - 1) errStringEnd;
          Ret (Return (None, Some (mkInvalidSyntaxErr (w + 2) v e)))
        | None =>
          found ← callLookupEnv lookupEnv name;
          let '(val, ok) := (found : list ascii * bool) in
          let buf := if ok then append buf val else append buf defaultValue in
          let j := j + w in
          Expand_nilable_loop fuel tmpl lookupEnv (j + 1) (j + 1) false buf
        end
    else Expand_nilable_loop fuel tmpl lookupEnv i (j + 1) false buf
  end.

Definition Expand_nilable (tmpl : list ascii) (lookupEnv : option E)
    (buf : bytes) : outcome expandResult :=
  r ← Expand_nilable_loop (length tmpl) tmpl lookupEnv 0 0 false buf;
  match r with
  | Return res => Ret res
  | Done (i, buf) =>
    lit ← slice tmpl i (len tmpl);
    Ret (append buf lit, None)
  end.
End Nilable.

(** ** The loops as recursions over the bytes not yet read

    These functions restate the loops above without indices and fuel; the
    lemmas [readVarName_loop_rest], [readDefaultValue_iterRest] and
    [Expand_expandAll] below show that the code computes them. *)

(** A byte that ends a name. *)
Definition isDelim (c : ascii) : bool :=
  Ascii.eqb c "}"%char || Ascii.eqb c "|"%char.

(** The name loop as a recursion over the bytes not yet read: [pre] is
    [data[:i]] and [rest] is [data[i:]]. *)
Fixpoint nameLoopRest (pre rest : list ascii) : loop_end readResult Z :=
  match rest with
  | [] => Done (len pre)
  | c :: rest' =>
    if isDelim c then Return (pre, len pre + 1, None)
    else if negb (validNameChar c) then
      Return ([], len pre, Some errInvalidCharacter)
    else nameLoopRest (pre ++ [c]) rest'
  end.

(** The names [readVarName] accepts, with the code's own predicates. *)
Definition validName (name : list ascii) : bool :=
  match name with
  | [] => false
  | c :: cs => validNameFirstChar c && forallb validNameChar cs
  end.

(** The first loop over the bytes not yet read.  Its flag stays [false]
    until the loop is left, so it is dropped here; at the end the split of
    [data] is kept. *)
Fixpoint plainRest (pre rest : list ascii)
  : loop_end readResult (list ascii * list ascii) :=
  match rest with
  | [] => Done (pre, rest)
  | c :: rest' =>
    if Ascii.eqb c "\"%char then Done (pre, rest)
    else if Ascii.eqb c "}"%char then Return (pre, len pre + 1, None)
    else plainRest (pre ++ [c]) rest'
  end.

(** The second loop over the bytes not yet read, [i] being their offset. *)
Fixpoint iterRest (i : Z) (rest buf : list ascii) (escaped : bool)
  : loop_end readResult (Z * list ascii * bool) :=
  match rest with
  | [] => Done (i, buf, false)
  | c :: rest' =>
    if Ascii.eqb c "\"%char then
      iterRest (i + 1) rest' (if escaped then buf ++ [c] else buf)
        (negb escaped)
    else if Ascii.eqb c "}"%char && negb escaped then Done (i, buf, true)
    else if escaped && negb (Ascii.eqb c "}"%char) then
      Return ([], i, Some errInvalidEscape)
    else iterRest (i + 1) rest' (buf ++ [c]) false
  end.

(** What [readDefaultValue] makes of the end of its second loop. *)
Definition finishIter (r : loop_end readResult (Z * list ascii * bool))
  : readResult :=
  match r with
  | Return res => res
  | Done (i, buf, foundClose) =>
    if negb foundClose then ([], i, Some errUnterminated)
    else (buf, i + 1, None)
  end.

(** A byte that has to be escaped inside a default value. *)
Definition needsEscape (c : ascii) : bool :=
  Ascii.eqb c "\"%char || Ascii.eqb c "}"%char.

(** The escaping the documentation of [Expand] asks for in a default value:
    [}] is written [\}] and [\] is written [\\]. *)
Fixpoint escape (v : list ascii) : list ascii :=
  match v with
  | [] => []
  | c :: v' =>
    if needsEscape c then "\"%char :: c :: escape v' else c :: escape v'
  end.

Section ExpandRest.
Context {E : Type} `{Environment E}.
Variable lookupEnv : E.

(** The state of the main loop without its indices: [lit] is the run
    [tmpl[i:j]] not yet flushed, [rest] is [tmpl[j:]]. *)
Definition expandState : Type := (list ascii * bool * bytes)%type.

(** The main loop over the bytes not yet read.  Where the fuel is spent or
    [varInfo] panics it stops where it is; [Expand_loop_expandRest] shows
    that neither happens. *)
Fixpoint expandRest (fuel : nat) (lit rest : list ascii) (dollar : bool)
    (buf : bytes) : loop_end expandResult expandState :=
  match rest with
  | [] => Done (lit, dollar, buf)
  | c :: rest' =>
    match fuel with
    | O => Done (lit, dollar, buf)
    | S fuel =>
      if Ascii.eqb c "$"%char then
        if negb dollar then expandRest fuel (lit ++ [c]) rest' true buf
        else expandRest fuel [] rest' false (append buf lit)
      else if Ascii.eqb c "{"%char then
        if negb dollar then expandRest fuel (lit ++ [c]) rest' dollar buf
        else
          let buf := match buf with None => Some [] | Some _ => buf end in
          let buf := append buf (removelast lit) in
          match varInfo rest' with
          | Ret (name, defaultValue, w, Some e) =>
            let v := "$"%char :: "{"%char :: take (Z.to_nat (w + 4)) rest' in
            Return (None, Some (mkInvalidSyntaxErr (w + 2) v e))
          | Ret (name, defaultValue, w, None) =>
            let '(val, ok) := LookupEnv lookupEnv name in
            expandRest fuel [] (drop (Z.to_nat w) rest') false
              (append buf (if ok then val else defaultValue))
          | _ => Done (lit, dollar, buf)
          end
      else expandRest fuel (lit ++ [c]) rest' false buf
    end
  end.

(** The flush after the loop. *)
Definition finishRest (r : loop_end expandResult expandState) : expandResult :=
  match r with
  | Return res => res
  | Done (lit, _, buf) => (append buf lit, None)
  end.

Definition finishLoop (tmpl : list ascii)
    (r : loop_end expandResult (Z * bytes)) : outcome expandResult :=
  match r with
  | Return res => Ret res
  | Done (i, buf) =>
    lit ← slice tmpl i (len tmpl);
    Ret (append buf lit, None)
  end.

(** The main loop with all the fuel it needs. *)
Definition expandAll (lit rest : list ascii) (dollar : bool) (buf : bytes)
  : loop_end expandResult expandState :=
  expandRest (length rest) lit rest dollar buf.

(** A byte slice that is not [nil], as [Expand] makes it before it appends
    at a reference. *)
Definition allocated (buf : bytes) : bytes :=
  match buf with
  | None => Some []
  | Some _ => buf
  end.
End ExpandRest.

(** Two runs that differ in the bytes already in the buffer. *)
Definition framed (pre : list ascii)
    (r1 r2 : loop_end expandResult expandState) : Prop :=
  match r1, r2 with
  | Return x, Return y => x = y
  | Done (l1, d1, b1), Done (l2, d2, b2) =>
      l1 = l2 /\ d1 = d2 /\ contents b2 = pre ++ contents b1
  | _, _ => False
  end.

(** The name pattern of the specification, [[a-zA-Z_][a-zA-Z0-9_]*], over
    byte codes. *)
Definition isLetter (c : ascii) : bool :=
  let n := N_of_ascii c in
  ((97 <=? n) && (n <=? 122) || (65 <=? n) && (n <=? 90))%N.

Definition isDigit (c : ascii) : bool :=
  let n := N_of_ascii c in ((48 <=? n) && (n <=? 57))%N.

Definition isUnderscore (c : ascii) : bool := (N_of_ascii c =? 95)%N.

Definition matchesNamePattern (name : list ascii) : bool :=
  match name with
  | [] => false
  | c :: cs =>
    (isLetter c || isUnderscore c)
    && forallb (fun c => isLetter c || isDigit c || isUnderscore c) cs
  end.

(** A provider that knows no variable. *)
Definition emptyEnv : MapEnvironment := ∅.

(** A provider that knows [HOME]. *)
Definition homeEnv : MapEnvironment := {[ bs "HOME" := bs "/usr/gopher" ]}.

(** A provider that answers like [homeEnv] for names of the pattern and
    resolves every other key to junk. *)
Definition wellFormedOnly : envFunc := fun key =>
  if matchesNamePattern key then LookupEnv homeEnv key else (bs "junk", true).

(** The provider of the example in the package documentation. *)
Definition foxEnv : MapEnvironment :=
  {[ bs "fox_speed" := bs "quick"; bs "canine_temperament" := bs "lazy" ]}.

(** ** Definitions for the further properties *)

(** What an error kind says about the byte at which the parse stopped, as
    the [return] statements of [readVarName] and [readDefaultValue] have
    it. *)
Definition stoppedAt (cause : parseErr) (c : ascii) : bool :=
  match cause with
  | errEmptyString => isDelim c
  | errInvalidStartingCharacter =>
    negb (isDelim c) && negb (validNameFirstChar c)
  | errInvalidCharacter => negb (isDelim c) && negb (validNameChar c)
  | errInvalidEscape => negb (needsEscape c)
  | errUnterminated => false
  end.

(** Text written for a template as the documentation of [Expand] asks:
    every [$] doubled. *)
Fixpoint doubleDollars (s : list ascii) : list ascii :=
  match s with
  | [] => []
  | c :: s' =>
    if Ascii.eqb c "$"%char then "$"%char :: "$"%char :: doubleDollars s'
    else c :: doubleDollars s'
  end.

(** Two runs of the main loop that end alike, buffers apart. *)
Definition sameShape (r1 r2 : loop_end expandResult expandState) : Prop :=
  match r1, r2 with
  | Return x, Return y => x = y
  | Done (l1, d1, _), Done (l2, d2, _) => l1 = l2 /\ d1 = d2
  | _, _ => False
  end.

(** The bytes that are neither [\] nor [}]: what the tests' [stripChars]
    keeps when it is called with the characters [\}]. *)
Definition unescapedBytes (s : list ascii) : list ascii :=
  List.filter (fun c => negb (needsEscape c)) s.

(** * Properties *)

#[global] Arguments readVarName_loop : simpl never.
#[global] Arguments readDefaultValue_scan : simpl never.
#[global] Arguments readDefaultValue_iter : simpl never.
#[global] Arguments Expand_loop : simpl never.
#[global] Arguments len : simpl never.
#[global] Arguments index : simpl never.
#[global] Arguments slice : simpl never.

Lemma bind_Ret {A B} (a : A) (f : A -> outcome B) : (Ret a ≫= f) = f a.
Proof. reflexivity. Qed.

(** ** Strings, indices and slices *)

Lemma len_nonneg s : 0 <= len s.
Proof. unfold len. lia. Qed.

Lemma len_app a b : len (a ++ b) = len a + len b.
Proof. unfold len. rewrite length_app. lia. Qed.

Lemma len_cons c s : len (c :: s) = len s + 1.
Proof. unfold len. simpl. lia. Qed.

Lemma len_nil : len [] = 0.
Proof. reflexivity. Qed.

Lemma to_nat_len s : Z.to_nat (len s) = length s.
Proof. unfold len. lia. Qed.

Lemma index_app pre c rest : index (pre ++ c :: rest) (len pre) = Ret c.
Proof.
  unfold index.
  rewrite len_app, len_cons, to_nat_len.
  pose proof (len_nonneg pre). pose proof (len_nonneg rest).
  replace (0 <=? len pre) with true by lia.
  replace (len pre <? len pre + (len rest + 1)) with true by lia.
  simpl. now rewrite list_lookup_middle.
Qed.

Lemma index_head c s : index (c :: s) 0 = Ret c.
Proof. reflexivity. Qed.

Lemma slice_app a b c : slice (a ++ b ++ c) (len a) (len a + len b) = Ret b.
Proof.
  unfold slice.
  rewrite !len_app.
  pose proof (len_nonneg a). pose proof (len_nonneg b).
  pose proof (len_nonneg c).
  replace (0 <=? len a) with true by lia.
  replace (len a <=? len a + len b) with true by lia.
  replace (len a + len b <=? len a + (len b + len c)) with true by lia.
  simpl. f_equal.
  rewrite to_nat_len, drop_app_length.
  replace (Z.to_nat (len a + len b - len a)) with (length b)
    by (unfold len; lia).
  now rewrite take_app_length.
Qed.

Lemma slice_prefix pre rest : slice (pre ++ rest) 0 (len pre) = Ret pre.
Proof.
  pose proof (slice_app [] pre rest) as Hs.
  now rewrite len_nil in Hs.
Qed.

Lemma slice_suffix pre rest :
  slice (pre ++ rest) (len pre) (len (pre ++ rest)) = Ret rest.
Proof.
  pose proof (slice_app pre rest []) as Hs.
  rewrite app_nil_r in Hs. now rewrite len_app.
Qed.

(** ** readVarName *)

Lemma readVarName_loop_eq fuel data i :
  readVarName_loop fuel data i =
  if negb (i <? len data) then Ret (Done i) else
  match fuel with
  | O => OutOfFuel
  | S fuel =>
    c ← index data i;
    if Ascii.eqb c "}"%char || Ascii.eqb c "|"%char then
      name ← slice data 0 i;
      Ret (Return (name, i + 1, None))
    else if negb (validNameChar c) then
      Ret (Return ([], i, Some errInvalidCharacter))
    else readVarName_loop fuel data (i + 1)
  end.
Proof. destruct fuel; reflexivity. Qed.

Lemma readVarName_loop_rest rest : forall fuel pre,
  (length rest <= fuel)%nat ->
  readVarName_loop fuel (pre ++ rest) (len pre) = Ret (nameLoopRest pre rest).
Proof.
  induction rest as [|c rest IH]; intros fuel pre Hfuel;
    rewrite readVarName_loop_eq.
  - rewrite app_nil_r.
    replace (len pre <? len pre) with false by lia. reflexivity.
  - rewrite len_app, len_cons. pose proof (len_nonneg rest).
    replace (len pre <? len pre + (len rest + 1)) with true by lia.
    simpl in *. destruct fuel as [|fuel]; [lia|].
    rewrite index_app. simpl. fold (isDelim c).
    destruct (isDelim c).
    + now rewrite slice_prefix.
    + destruct (validNameChar c); simpl; [|reflexivity].
      rewrite <- (IH fuel) by lia.
      now rewrite len_app, len_cons, len_nil, <- app_assoc.
Qed.

Lemma validNameChar_not_delim c : validNameChar c = true -> isDelim c = false.
Proof.
  destruct c as [[] [] [] [] [] [] [] []]; vm_compute; congruence.
Qed.

Lemma isDelim_spec c :
  isDelim c = true <-> c = "}"%char \/ c = "|"%char.
Proof.
  unfold isDelim. rewrite orb_true_iff, !Ascii.eqb_eq. tauto.
Qed.

Lemma nameLoopRest_ok mid : forall pre d rest,
  forallb validNameChar mid = true -> isDelim d = true ->
  nameLoopRest pre (mid ++ d :: rest) =
  Return (pre ++ mid, len (pre ++ mid) + 1, None).
Proof.
  induction mid as [|c mid IH]; intros pre d rest Hmid Hd; simpl in *.
  - rewrite Hd, app_nil_r. reflexivity.
  - apply andb_true_iff in Hmid as [Hc Hmid].
    rewrite (validNameChar_not_delim c Hc), Hc. simpl.
    rewrite IH by assumption. now rewrite <- app_assoc.
Qed.

Lemma nameLoopRest_inv rest : forall pre,
  match nameLoopRest pre rest with
  | Return (name, n, None) =>
      exists mid d rest', rest = mid ++ d :: rest' /\ name = pre ++ mid /\
        n = len name + 1 /\ isDelim d = true /\
        forallb validNameChar mid = true
  | Return (name, n, Some e) =>
      name = [] /\ len pre <= n < len pre + len rest /\
      e = errInvalidCharacter
  | Done k => k = len pre + len rest
  end.
Proof.
  induction rest as [|c rest IH]; intros pre; simpl.
  - rewrite len_nil. lia.
  - pose proof (len_nonneg rest). rewrite len_cons.
    destruct (isDelim c) eqn:Hd.
    + exists [], c, rest. rewrite app_nil_r. auto.
    + destruct (validNameChar c) eqn:Hc; simpl; [|split; [|split]; auto; lia].
      specialize (IH (pre ++ [c])).
      destruct (nameLoopRest (pre ++ [c]) rest) as [[[name n] [e|]]|k].
      * rewrite len_app, len_cons, len_nil in IH.
        destruct IH as (? & ? & ?). split; [|split]; auto. lia.
      * destruct IH as (mid & d & rest' & -> & -> & -> & Hd' & Hmid).
        exists (c :: mid), d, rest'. rewrite <- app_assoc. simpl.
        rewrite Hc, Hmid. auto.
      * rewrite len_app, len_cons, len_nil in IH. lia.
Qed.

Lemma readVarName_loop_tail c data :
  readVarName_loop (S (length data)) (c :: data) 1 =
  Ret (nameLoopRest [c] data).
Proof. apply (readVarName_loop_rest data (S (length data)) [c]). lia. Qed.

(** [readVarName] accepts a well-formed name followed by a delimiter,
    whatever comes after. *)
Lemma readVarName_ok name d rest :
  validName name = true -> isDelim d = true ->
  readVarName (name ++ d :: rest) = Ret (name, len name + 1, None).
Proof.
  intros Hname Hd. destruct name as [|c name]; [discriminate|].
  simpl in Hname. apply andb_true_iff in Hname as [Hc Hname].
  unfold readVarName. rewrite decide_False by discriminate.
  rewrite <- app_comm_cons, index_head. simpl.
  assert (Hc' : validNameChar c = true)
    by (unfold validNameChar; now rewrite Hc).
  pose proof (validNameChar_not_delim c Hc') as Hnd. unfold isDelim in Hnd.
  rewrite Hnd, Hc. simpl.
  rewrite readVarName_loop_tail. simpl.
  rewrite nameLoopRest_ok by assumption. reflexivity.
Qed.

(** What [readVarName] returns: it never panics; a success splits [data]
    into the name, its delimiter and the rest; a failure reports a width
    within [data]. *)
Lemma readVarName_inv data :
  match readVarName data with
  | Ret (name, n, None) =>
      exists d rest, data = name ++ d :: rest /\ isDelim d = true /\
        validName name = true /\ n = len name + 1
  | Ret (name, n, Some e) => name = [] /\ 0 <= n <= len data
  | _ => False
  end.
Proof.
  unfold readVarName. destruct data as [|c data].
  - rewrite decide_True by reflexivity. rewrite len_nil. split; [auto|lia].
  - rewrite decide_False by discriminate.
    rewrite index_head. simpl. fold (isDelim c).
    pose proof (len_nonneg data). rewrite len_cons.
    destruct (isDelim c) eqn:Hd; [split; [auto|lia]|].
    destruct (validNameFirstChar c) eqn:Hc; simpl; [|split; [auto|lia]].
    rewrite readVarName_loop_tail. simpl.
    pose proof (nameLoopRest_inv data [c]) as Hinv.
    change (len [c]) with 1 in Hinv.
    destruct (nameLoopRest [c] data) as [[[name n] [e|]]|k].
    + destruct Hinv as (? & ? & ?). split; [auto|lia].
    + destruct Hinv as (mid & d & rest' & -> & -> & -> & Hd' & Hmid).
      exists d, rest'. simpl. rewrite Hc, Hmid. auto.
    + split; [auto|lia].
Qed.

(** ** readDefaultValue *)

Lemma readDefaultValue_scan_eq fuel data i hasEscape :
  readDefaultValue_scan fuel data i hasEscape =
  if negb (i <? len data) then Ret (Done i) else
  match fuel with
  | O => OutOfFuel
  | S fuel =>
    c ← index data i;
    if Ascii.eqb c "\"%char then Ret (Done i)
    else if Ascii.eqb c "}"%char then
      v ← slice data 0 i;
      Ret (Return (v, i + 1, None))
    else if hasEscape then Ret (Done i)
    else readDefaultValue_scan fuel data (i + 1) hasEscape
  end.
Proof. destruct fuel; reflexivity. Qed.

Lemma readDefaultValue_iter_eq fuel data i buf escaped :
  readDefaultValue_iter fuel data i buf escaped =
  if negb (i <? len data) then Ret (Done (i, buf, false)) else
  match fuel with
  | O => OutOfFuel
  | S fuel =>
    c ← index data i;
    if Ascii.eqb c "\"%char then
      let buf := if escaped then buf ++ [c] else buf in
      readDefaultValue_iter fuel data (i + 1) buf (negb escaped)
    else if Ascii.eqb c "}"%char && negb escaped then
      Ret (Done (i, buf, true))
    else if escaped && negb (Ascii.eqb c "}"%char) then
      Ret (Return ([], i, Some errInvalidEscape))
    else readDefaultValue_iter fuel data (i + 1) (buf ++ [c]) false
  end.
Proof. destruct fuel; reflexivity. Qed.

Lemma readDefaultValue_scan_rest rest : forall fuel pre,
  (length rest <= fuel)%nat ->
  readDefaultValue_scan fuel (pre ++ rest) (len pre) false =
  Ret (match plainRest pre rest with
       | Return res => Return res
       | Done (pre', _) => Done (len pre')
       end).
Proof.
  induction rest as [|c rest IH]; intros fuel pre Hfuel;
    rewrite readDefaultValue_scan_eq.
  - rewrite app_nil_r.
    replace (len pre <? len pre) with false by lia. reflexivity.
  - rewrite len_app, len_cons. pose proof (len_nonneg rest).
    replace (len pre <? len pre + (len rest + 1)) with true by lia.
    simpl in *. destruct fuel as [|fuel]; [lia|].
    rewrite index_app. simpl.
    destruct (Ascii.eqb c "\"%char); [reflexivity|].
    destruct (Ascii.eqb c "}"%char); [now rewrite slice_prefix|].
    rewrite <- (IH fuel) by lia.
    now rewrite len_app, len_cons, len_nil, <- app_assoc.
Qed.

Lemma readDefaultValue_iter_rest rest : forall fuel pre buf escaped,
  (length rest <= fuel)%nat ->
  readDefaultValue_iter fuel (pre ++ rest) (len pre) buf escaped =
  Ret (iterRest (len pre) rest buf escaped).
Proof.
  induction rest as [|c rest IH]; intros fuel pre buf escaped Hfuel;
    rewrite readDefaultValue_iter_eq.
  - rewrite app_nil_r.
    replace (len pre <? len pre) with false by lia. reflexivity.
  - rewrite len_app, len_cons. pose proof (len_nonneg rest).
    replace (len pre <? len pre + (len rest + 1)) with true by lia.
    simpl in *. destruct fuel as [|fuel]; [lia|].
    rewrite index_app. simpl.
    assert (Hstep : forall b e,
      readDefaultValue_iter fuel (pre ++ c :: rest) (len pre + 1) b e =
      Ret (iterRest (len pre + 1) rest b e)).
    { intros b e. specialize (IH fuel (pre ++ [c]) b e).
      rewrite len_app, len_cons, len_nil, <- app_assoc in IH.
      apply IH. lia. }
    destruct (Ascii.eqb c "\"%char); [apply Hstep|].
    destruct (Ascii.eqb c "}"%char && negb escaped); [reflexivity|].
    destruct (escaped && negb (Ascii.eqb c "}"%char)); [reflexivity|].
    apply Hstep.
Qed.

Lemma plainRest_split rest : forall pre pre' rest',
  plainRest pre rest = Done (pre', rest') ->
  pre ++ rest = pre' ++ rest' /\ (length rest' <= length rest)%nat.
Proof.
  induction rest as [|c rest IH]; intros pre pre' rest'; simpl.
  - intros [= <- <-]. auto.
  - destruct (Ascii.eqb c "\"%char); [intros [= <- <-]; auto|].
    destruct (Ascii.eqb c "}"%char); [discriminate|].
    intros Hs. apply IH in Hs as [Heq Hlen].
    rewrite <- app_assoc in Heq. split; [exact Heq|lia].
Qed.

(** The first loop only skips bytes the second loop would copy. *)
Lemma plainRest_iterRest rest : forall pre,
  match plainRest pre rest with
  | Return res => res
  | Done (pre', rest') =>
    match rest' with
    | [] => ([], len pre', Some errUnterminated)
    | _ => finishIter (iterRest (len pre') rest' pre' false)
    end
  end = finishIter (iterRest (len pre) rest pre false).
Proof.
  induction rest as [|c rest IH]; intros pre; simpl; [reflexivity|].
  destruct (Ascii.eqb c "\"%char) eqn:Hb.
  - simpl. now rewrite Hb.
  - destruct (Ascii.eqb c "}"%char); simpl; [reflexivity|].
    rewrite IH. now rewrite len_app, len_cons, len_nil.
Qed.

(** [readDefaultValue] is its second loop run from the start. *)
Lemma readDefaultValue_iterRest data :
  readDefaultValue data = Ret (finishIter (iterRest 0 data [] false)).
Proof.
  unfold readDefaultValue.
  pose proof (readDefaultValue_scan_rest data (length data) []) as Hscan0.
  simpl in Hscan0. change (len []) with 0 in Hscan0.
  rewrite Hscan0 by lia. clear Hscan0.
  rewrite bind_Ret.
  change 0 with (len []) at 2. rewrite <- (plainRest_iterRest data []).
  destruct (plainRest [] data) as [res|[pre' rest']] eqn:Hscan; [reflexivity|].
  apply plainRest_split in Hscan as [Heq Hlen]. simpl in Heq. subst data.
  rewrite len_app. pose proof (len_nonneg rest').
  destruct rest' as [|c rest'].
  - rewrite len_nil. replace (len pre' =? len pre' + 0) with true by lia.
    reflexivity.
  - rewrite len_cons in *. pose proof (len_nonneg rest').
    replace (len pre' =? len pre' + (len rest' + 1)) with false by lia.
    rewrite slice_prefix, bind_Ret.
    rewrite readDefaultValue_iter_rest by (rewrite length_app; lia).
    rewrite bind_Ret.
    destruct (iterRest (len pre') (c :: rest') pre' false)
      as [res|[[i buf] []]]; reflexivity.
Qed.

(** The second loop reads an escaped value back. *)
Lemma iterRest_escape v : forall i rest buf,
  iterRest i (escape v ++ rest) buf false =
  iterRest (i + len (escape v)) rest (buf ++ v) false.
Proof.
  induction v as [|c v IH]; intros i rest buf; simpl.
  - now rewrite len_nil, Z.add_0_r, app_nil_r.
  - unfold needsEscape.
    destruct (Ascii.eqb c "\"%char) eqn:Hb; simpl.
    + rewrite Hb, IH, !len_cons, <- app_assoc. simpl.
      f_equal. lia.
    + destruct (Ascii.eqb c "}"%char) eqn:Hc; simpl.
      * rewrite Hb, Hc, IH, !len_cons, <- app_assoc. simpl.
        f_equal. lia.
      * rewrite Hb, Hc, IH, !len_cons, <- app_assoc. simpl.
        f_equal. lia.
Qed.

Lemma iterRest_inv rest : forall i buf escaped,
  match iterRest i rest buf escaped with
  | Done (k, b, true) =>
      exists v rest',
        (if escaped then "\"%char :: rest else rest) =
          escape v ++ "}"%char :: rest' /\
        b = buf ++ v /\
        k = i + len (escape v) - (if escaped then 1 else 0)
  | Done (k, b, false) => k = i + len rest
  | Return (v, n, e) =>
      v = [] /\ i <= n < i + len rest /\ e = Some errInvalidEscape
  end.
Proof.
  induction rest as [|c rest IH]; intros i buf escaped; simpl.
  - rewrite len_nil. lia.
  - pose proof (len_nonneg rest). rewrite len_cons.
    destruct (Ascii.eqb c "\"%char) eqn:Hb.
    { apply Ascii.eqb_eq in Hb. subst c.
      specialize (IH (i + 1) (if escaped then buf ++ ["\"%char] else buf)
                    (negb escaped)).
      destruct (iterRest _ rest _ _) as [[[v n] e]|[[k b] []]].
      - destruct IH as (? & ? & ?). split; [|split]; auto. lia.
      - destruct IH as (v & rest' & Heq & -> & ->).
        destruct escaped; simpl in *.
        + exists ("\"%char :: v), rest'. simpl. rewrite Heq, !len_cons.
          rewrite <- app_assoc. simpl. split; [|split]; auto. lia.
        + exists v, rest'. split; [|split]; auto. lia.
      - lia. }
    destruct (Ascii.eqb c "}"%char) eqn:Hc.
    { apply Ascii.eqb_eq in Hc. subst c. destruct escaped; simpl.
      - specialize (IH (i + 1) (buf ++ ["}"%char]) false).
        destruct (iterRest _ rest _ _) as [[[v n] e]|[[k b] []]].
        + destruct IH as (? & ? & ?). split; [|split]; auto. lia.
        + destruct IH as (v & rest' & -> & -> & ->).
          exists ("}"%char :: v), rest'. simpl. rewrite !len_cons.
          rewrite <- app_assoc. simpl. split; [|split]; auto. lia.
        + lia.
      - exists [], rest. simpl. rewrite len_nil, app_nil_r.
        split; [|split]; auto. lia. }
    destruct escaped; simpl.
    { split; [|split]; auto. lia. }
    specialize (IH (i + 1) (buf ++ [c]) false).
    destruct (iterRest _ rest _ _) as [[[v n] e]|[[k b] []]].
    + destruct IH as (? & ? & ?). split; [|split]; auto. lia.
    + destruct IH as (v & rest' & -> & -> & ->).
      exists (c :: v), rest'. simpl. unfold needsEscape.
      rewrite Hb, Hc. simpl. rewrite !len_cons, <- app_assoc. simpl.
      split; [|split]; auto. lia.
    + lia.
Qed.

(** [readDefaultValue] reads an escaped value up to its closing brace,
    whatever comes after. *)
Lemma readDefaultValue_ok v rest :
  readDefaultValue (escape v ++ "}"%char :: rest) =
  Ret (v, len (escape v) + 1, None).
Proof.
  rewrite readDefaultValue_iterRest, iterRest_escape. reflexivity.
Qed.

(** What [readDefaultValue] returns: it never panics; a success splits
    [data] into the escaped value, the closing brace and the rest; a failure
    reports a width within [data]. *)
Lemma readDefaultValue_inv data :
  match readDefaultValue data with
  | Ret (v, n, None) =>
      exists rest, data = escape v ++ "}"%char :: rest /\
        n = len (escape v) + 1
  | Ret (v, n, Some e) => v = [] /\ 0 <= n <= len data
  | _ => False
  end.
Proof.
  rewrite readDefaultValue_iterRest.
  pose proof (iterRest_inv data 0 [] false) as Hinv.
  destruct (iterRest 0 data [] false) as [[[v n] e]|[[k b] []]]; simpl.
  - destruct Hinv as (-> & Hn & ->). split; [auto|lia].
  - destruct Hinv as (v & rest' & -> & -> & ->). exists rest'. simpl.
    split; [reflexivity|lia].
  - pose proof (len_nonneg data). split; [auto|lia].
Qed.

(** ** varInfo *)

Lemma slice_after name d rest :
  slice (name ++ d :: rest) (len name + 1) (len (name ++ d :: rest)) =
  Ret rest.
Proof.
  pose proof (slice_suffix (name ++ [d]) rest) as Hs.
  now rewrite len_app, len_cons, len_nil, <- !app_assoc in Hs.
Qed.

Lemma varInfo_after_name name d rest :
  validName name = true -> isDelim d = true ->
  varInfo (name ++ d :: rest) =
  if Ascii.eqb d "}"%char then Ret (name, [], len name + 1, None)
  else
    '(defaultValue, valLen, e) ← readDefaultValue rest;
    match e with
    | Some e => Ret ([], [], len name + 1 + valLen, Some e)
    | None => Ret (name, defaultValue, len name + 1 + valLen, None)
    end.
Proof.
  intros Hname Hd. unfold varInfo.
  rewrite readVarName_ok by assumption. rewrite bind_Ret. cbv beta iota.
  replace (len name + 1 - 1) with (len name) by lia.
  rewrite index_app, bind_Ret.
  destruct (Ascii.eqb d "}"%char); [reflexivity|].
  now rewrite slice_after, bind_Ret.
Qed.

(** A reference without a default value. *)
Lemma varInfo_brace name rest :
  validName name = true ->
  varInfo (name ++ "}"%char :: rest) = Ret (name, [], len name + 1, None).
Proof.
  intros Hname. now rewrite varInfo_after_name.
Qed.

(** A reference with a default value, escaped as documented. *)
Lemma varInfo_pipe name v rest :
  validName name = true ->
  varInfo (name ++ "|"%char :: escape v ++ "}"%char :: rest) =
  Ret (name, v, len name + 1 + (len (escape v) + 1), None).
Proof.
  intros Hname. rewrite varInfo_after_name by auto. simpl.
  now rewrite readDefaultValue_ok.
Qed.

(** What [varInfo] returns: it never panics; a success is one of the two
    forms above; a failure reports a width within [data]. *)
Lemma varInfo_inv data :
  match varInfo data with
  | Ret (name, defaultValue, w, None) =>
      validName name = true /\
      exists rest,
        (data = name ++ "}"%char :: rest /\ defaultValue = [] /\
         w = len name + 1) \/
        (data = name ++ "|"%char :: escape defaultValue ++ "}"%char :: rest /\
         w = len name + 1 + (len (escape defaultValue) + 1))
  | Ret (name, defaultValue, w, Some e) =>
      name = [] /\ defaultValue = [] /\ 0 <= w <= len data
  | _ => False
  end.
Proof.
  pose proof (readVarName_inv data) as Hname.
  destruct (readVarName data) as [[[name n] [e|]]| |] eqn:Hread;
    try contradiction.
  - unfold varInfo. rewrite Hread. simpl. tauto.
  - destruct Hname as (d & rest & -> & Hd & Hname & ->).
    rewrite varInfo_after_name by assumption.
    apply isDelim_spec in Hd as [-> | ->]; simpl.
    + split; [assumption|]. exists rest. auto.
    + pose proof (readDefaultValue_inv rest) as Hval.
      pose proof (len_nonneg name).
      destruct (readDefaultValue rest) as [[[v k] [e|]]| |];
        try contradiction; simpl.
      * rewrite len_app, len_cons. split; [|split]; auto. lia.
      * destruct Hval as (rest' & -> & ->).
        split; [assumption|]. exists rest'. auto.
Qed.

(** A successful parse only depends on the bytes it consumed. *)
Lemma varInfo_app data extra name defaultValue w :
  varInfo data = Ret (name, defaultValue, w, None) ->
  varInfo (data ++ extra) = Ret (name, defaultValue, w, None).
Proof.
  intros Hvar. pose proof (varInfo_inv data) as Hinv. rewrite Hvar in Hinv.
  destruct Hinv as (Hname & rest & [(-> & -> & ->) | (-> & ->)]).
  - rewrite <- app_assoc. simpl. now apply varInfo_brace.
  - rewrite <- app_assoc. simpl. rewrite <- app_assoc. simpl.
    now apply varInfo_pipe.
Qed.

(** ** Expand *)

Lemma append_append buf xs ys :
  append (append buf xs) ys = append buf (xs ++ ys).
Proof.
  destruct buf as [b|]; simpl.
  - now rewrite app_assoc.
  - destruct xs; simpl; [reflexivity|]. reflexivity.
Qed.

Lemma contents_append buf xs : contents (append buf xs) = contents buf ++ xs.
Proof. destruct buf; simpl; [reflexivity|]. now destruct xs. Qed.

Lemma index_mid a b c r : index (a ++ b ++ c :: r) (len a + len b) = Ret c.
Proof. rewrite app_assoc, <- len_app. apply index_app. Qed.

Lemma len_take_le (n : Z) (s : list ascii) :
  0 <= n <= len s -> len (take (Z.to_nat n) s) = n.
Proof. unfold len. intros Hn. rewrite length_take. lia. Qed.

Lemma len_take_min (n : Z) (s : list ascii) :
  0 <= n -> len (take (Z.to_nat n) s) = Z.min n (len s).
Proof. unfold len. intros Hn. rewrite length_take. lia. Qed.

Section ExpandLoop.
Context {E : Type} `{Environment E}.
Variable lookupEnv : E.

Lemma Expand_finishLoop tmpl buf :
  Expand tmpl lookupEnv buf =
  Expand_loop (length tmpl) tmpl lookupEnv 0 0 false buf ≫= finishLoop tmpl.
Proof. reflexivity. Qed.

Lemma Expand_loop_eq fuel tmpl i j dollar buf :
  Expand_loop fuel tmpl lookupEnv i j dollar buf =
  if negb (j <? len tmpl) then Ret (Done (i, buf)) else
  match fuel with
  | O => OutOfFuel
  | S fuel =>
    c ← index tmpl j;
    if Ascii.eqb c "$"%char then
      if negb dollar then Expand_loop fuel tmpl lookupEnv i (j + 1) true buf
      else
        lit ← slice tmpl i j;
        Expand_loop fuel tmpl lookupEnv (j + 1) (j + 1) false (append buf lit)
    else if Ascii.eqb c "{"%char then
      if negb dollar then
        Expand_loop fuel tmpl lookupEnv i (j + 1) dollar buf
      else
        let buf := match buf with None => Some [] | Some _ => buf end in
        lit ← slice tmpl i (j - 1);
        let buf := append buf lit in
        data ← slice tmpl (j + 1) (len tmpl);
        '(name, defaultValue, w, e) ← varInfo data;
        match e with
        | Some e =>
          let errStringEnd := j + w + 5 in
          let errStringEnd :=
            if len tmpl <? errStringEnd then len tmpl else errStringEnd in
          v ← slice tmpl (j - 1) errStringEnd;
          Ret (Return (None, Some (mkInvalidSyntaxErr (w + 2) v e)))
        | None =>
          let '(val, ok) := LookupEnv lookupEnv name in
          let buf := if ok then append buf val else append buf defaultValue in
          let j := j + w in
          Expand_loop fuel tmpl lookupEnv (j + 1) (j + 1) false buf
        end
    else Expand_loop fuel tmpl lookupEnv i (j + 1) false buf
  end.
Proof. destruct fuel; reflexivity. Qed.

Lemma Expand_loop_end fuel a lit dollar buf :
  Expand_loop fuel (a ++ lit) lookupEnv (len a) (len a + len lit) dollar buf
    ≫= finishLoop (a ++ lit) = Ret (append buf lit, None).
Proof.
  rewrite Expand_loop_eq, len_app.
  replace (len a + len lit <? len a + len lit) with false by lia.
  simpl. rewrite slice_suffix. reflexivity.
Qed.

Lemma expandRest_eq fuel lit rest dollar buf :
  expandRest lookupEnv fuel lit rest dollar buf =
  match rest with
  | [] => Done (lit, dollar, buf)
  | c :: rest' =>
    match fuel with
    | O => Done (lit, dollar, buf)
    | S fuel =>
      if Ascii.eqb c "$"%char then
        if negb dollar then expandRest lookupEnv fuel (lit ++ [c]) rest' true buf
        else expandRest lookupEnv fuel [] rest' false (append buf lit)
      else if Ascii.eqb c "{"%char then
        if negb dollar then expandRest lookupEnv fuel (lit ++ [c]) rest' dollar buf
        else
          let buf := match buf with None => Some [] | Some _ => buf end in
          let buf := append buf (removelast lit) in
          match varInfo rest' with
          | Ret (name, defaultValue, w, Some e) =>
            let v := "$"%char :: "{"%char :: take (Z.to_nat (w + 4)) rest' in
            Return (None, Some (mkInvalidSyntaxErr (w + 2) v e))
          | Ret (name, defaultValue, w, None) =>
            let '(val, ok) := LookupEnv lookupEnv name in
            expandRest lookupEnv fuel [] (drop (Z.to_nat w) rest') false
              (append buf (if ok then val else defaultValue))
          | _ => Done (lit, dollar, buf)
          end
      else expandRest lookupEnv fuel (lit ++ [c]) rest' false buf
    end
  end.
Proof. destruct fuel, rest; reflexivity. Qed.

Lemma varInfo_width data name defaultValue w :
  varInfo data = Ret (name, defaultValue, w, None) -> 1 <= w <= len data.
Proof.
  intros Hvar. pose proof (varInfo_inv data) as Hinv. rewrite Hvar in Hinv.
  destruct Hinv as (_ & rest & [(-> & -> & ->) | (-> & ->)]);
    rewrite ?len_app, ?len_cons, ?len_app, ?len_cons.
  - pose proof (len_nonneg name). pose proof (len_nonneg rest). lia.
  - pose proof (len_nonneg name). pose proof (len_nonneg rest).
    pose proof (len_nonneg (escape defaultValue)). lia.
Qed.

(** The loop of [Expand], followed by its final flush, computes what
    [expandRest] computes; in particular it neither panics nor runs out
    of fuel. *)
Lemma Expand_loop_expandRest fuel :
  forall tmpl i j a lit rest dollar buf,
  tmpl = a ++ lit ++ rest -> i = len a -> j = len a + len lit ->
  (length rest <= fuel)%nat ->
  (dollar = true -> exists lit0, lit = lit0 ++ ["$"%char]) ->
  Expand_loop fuel tmpl lookupEnv i j dollar buf ≫= finishLoop tmpl =
  Ret (finishRest (expandRest lookupEnv fuel lit rest dollar buf)).
Proof.
  induction fuel as [|fuel IH];
    intros tmpl i j a lit rest dollar buf -> -> -> Hfuel Hdollar.
  { destruct rest; [|simpl in Hfuel; lia].
    rewrite app_nil_r. apply Expand_loop_end. }
  destruct rest as [|c rest].
  { rewrite app_nil_r. apply Expand_loop_end. }
  simpl in Hfuel. rewrite expandRest_eq, Expand_loop_eq.
  pose proof (len_nonneg a). pose proof (len_nonneg lit).
  pose proof (len_nonneg rest).
  assert (Hlen : len (a ++ lit ++ c :: rest) =
                 len a + len lit + len rest + 1)
    by (rewrite !len_app, len_cons; lia).
  rewrite index_mid, bind_Ret.
  set (tmpl := a ++ lit ++ c :: rest) in *.
  replace (len a + len lit <? len tmpl) with true by lia. cbn [negb].
  assert (Hadv : forall d,
    (d = true -> c = "$"%char) ->
    Expand_loop fuel tmpl lookupEnv (len a) (len a + len lit + 1) d buf
      ≫= finishLoop tmpl =
    Ret (finishRest (expandRest lookupEnv fuel (lit ++ [c]) rest d buf))).
  { intros d Hd. apply (IH tmpl _ _ a (lit ++ [c]) rest).
    - unfold tmpl. now rewrite <- app_assoc.
    - reflexivity.
    - rewrite len_app, len_cons, len_nil. lia.
    - lia.
    - intros ->. exists lit. now rewrite Hd. }
  destruct (Ascii.eqb c "$"%char) eqn:Hc.
  { apply Ascii.eqb_eq in Hc.
    destruct dollar; cbn [negb]; [|now apply Hadv].
    assert (Hs : slice tmpl (len a) (len a + len lit) = Ret lit)
      by apply slice_app.
    rewrite Hs, bind_Ret. clear Hs.
    apply (IH tmpl _ _ (a ++ lit ++ [c]) [] rest).
    - unfold tmpl. now rewrite <- !app_assoc.
    - rewrite !len_app, len_cons, len_nil. lia.
    - rewrite !len_app, len_cons, len_nil. lia.
    - lia.
    - discriminate. }
  destruct (Ascii.eqb c "{"%char) eqn:Hb; [|now apply Hadv].
  destruct dollar; cbn [negb]; [|now apply Hadv].
  destruct Hdollar as [lit0 ->]; [reflexivity|].
  rewrite removelast_last. cbv zeta.
  rewrite len_app, len_cons, len_nil in *.
  assert (Hlit : slice tmpl (len a) (len a + (len lit0 + (0 + 1)) - 1) =
                 Ret lit0).
  { replace (len a + (len lit0 + (0 + 1)) - 1) with (len a + len lit0)
      by lia.
    unfold tmpl. rewrite <- app_assoc. apply slice_app. }
  rewrite Hlit, bind_Ret. clear Hlit.
  assert (Hdata : slice tmpl (len a + (len lit0 + (0 + 1)) + 1) (len tmpl) =
                  Ret rest).
  { pose proof (slice_suffix (a ++ (lit0 ++ ["$"%char]) ++ [c]) rest) as Hs.
    rewrite !len_app, !len_cons, len_nil in Hs.
    rewrite <- !app_assoc in Hs. simpl in Hs.
    unfold tmpl. rewrite <- app_assoc. simpl.
    rewrite !len_app, !len_cons.
    rewrite <- Hs. f_equal; lia. }
  rewrite Hdata, bind_Ret. clear Hdata.
  pose proof (varInfo_inv rest) as Hinv.
  destruct (varInfo rest) as [[[[name defaultValue] w] [e|]]| |] eqn:Hvar;
    try contradiction; rewrite bind_Ret; cbv beta iota zeta.
  - destruct Hinv as (_ & _ & Hw).
    set (k := Z.to_nat (w + 4)).
    assert (Hv : slice tmpl (len a + (len lit0 + (0 + 1)) - 1)
              (if len tmpl <? len a + (len lit0 + (0 + 1)) + w + 5
               then len tmpl else len a + (len lit0 + (0 + 1)) + w + 5) =
            Ret ("$"%char :: "{"%char :: take k rest)).
    { pose proof (slice_app (a ++ lit0)
                    ("$"%char :: "{"%char :: take k rest) (drop k rest))
        as Hs.
      rewrite <- !app_assoc in Hs. simpl in Hs. rewrite take_drop in Hs.
      apply Ascii.eqb_eq in Hb. subst c.
      unfold tmpl. rewrite <- app_assoc. simpl.
      rewrite <- Hs. rewrite !len_app, !len_cons.
      unfold k. rewrite len_take_min by lia.
      f_equal; [lia|].
      match goal with
      | |- context [?x <? ?y] => destruct (Z.ltb_spec x y)
      end; lia. }
    rewrite Hv, bind_Ret. reflexivity.
  - pose proof (varInfo_width _ _ _ _ Hvar) as Hw.
    destruct (LookupEnv lookupEnv name) as [val ok].
    set (k := Z.to_nat w).
    replace (if ok then append (append match buf with
               | Some _ => buf | None => Some [] end lit0) val
             else append (append match buf with
               | Some _ => buf | None => Some [] end lit0) defaultValue)
      with (append (append match buf with
               | Some _ => buf | None => Some [] end lit0)
              (if ok then val else defaultValue))
      by (now destruct ok).
    apply (IH tmpl _ _ (a ++ (lit0 ++ ["$"%char]) ++ [c] ++ take k rest) []
             (drop k rest)).
    + unfold tmpl. rewrite <- !app_assoc. simpl.
      now rewrite take_drop.
    + rewrite !len_app, !len_cons, len_nil. unfold k.
      rewrite len_take_le by lia. lia.
    + rewrite !len_app, !len_cons, !len_nil. unfold k.
      rewrite len_take_le by lia. lia.
    + rewrite length_drop. lia.
    + discriminate.
Qed.

Lemma expandRest_fuel f1 : forall f2 lit rest dollar buf,
  (length rest <= f1)%nat -> (length rest <= f2)%nat ->
  expandRest lookupEnv f1 lit rest dollar buf = expandRest lookupEnv f2 lit rest dollar buf.
Proof.
  induction f1 as [|f1 IH]; intros f2 lit rest dollar buf H1 H2.
  - destruct rest; [|simpl in H1; lia]. now destruct f2.
  - destruct rest as [|c rest]; [now destruct f2|].
    destruct f2 as [|f2]; [simpl in H2; lia|]. simpl in *.
    destruct (Ascii.eqb c "$"%char);
      [destruct dollar; simpl; apply IH; lia|].
    destruct (Ascii.eqb c "{"%char); [|apply IH; lia].
    destruct dollar; simpl; [|apply IH; lia].
    destruct (varInfo rest) as [[[[name defaultValue] w] [e|]]| |];
      try reflexivity.
    destruct (LookupEnv lookupEnv name) as [val ok].
    apply IH; rewrite length_drop; lia.
Qed.

(** [Expand] in terms of [expandAll]: it always returns. *)
Lemma Expand_expandAll tmpl buf :
  Expand tmpl lookupEnv buf =
  Ret (finishRest (expandAll lookupEnv [] tmpl false buf)).
Proof.
  rewrite Expand_finishLoop.
  apply (Expand_loop_expandRest (length tmpl) tmpl 0 0 [] [] tmpl);
    auto; discriminate.
Qed.

Lemma expandAll_nil lit dollar buf :
  expandAll lookupEnv lit [] dollar buf = Done (lit, dollar, buf).
Proof. reflexivity. Qed.

Lemma expandAll_dollar_first lit rest buf :
  expandAll lookupEnv lit ("$"%char :: rest) false buf =
  expandAll lookupEnv (lit ++ ["$"%char]) rest true buf.
Proof. reflexivity. Qed.

Lemma expandAll_dollar_second lit rest buf :
  expandAll lookupEnv lit ("$"%char :: rest) true buf =
  expandAll lookupEnv [] rest false (append buf lit).
Proof. reflexivity. Qed.

Lemma expandAll_brace lit rest buf :
  expandAll lookupEnv lit ("{"%char :: rest) false buf =
  expandAll lookupEnv (lit ++ ["{"%char]) rest false buf.
Proof. reflexivity. Qed.

Lemma expandAll_other c lit rest dollar buf :
  Ascii.eqb c "$"%char = false -> Ascii.eqb c "{"%char = false ->
  expandAll lookupEnv lit (c :: rest) dollar buf =
  expandAll lookupEnv (lit ++ [c]) rest false buf.
Proof.
  intros Hd Hb. unfold expandAll. simpl. now rewrite Hd, Hb.
Qed.

Lemma expandAll_ref lit rest buf :
  expandAll lookupEnv lit ("{"%char :: rest) true buf =
  match varInfo rest with
  | Ret (name, defaultValue, w, Some e) =>
    let v := "$"%char :: "{"%char :: take (Z.to_nat (w + 4)) rest in
    Return (None, Some (mkInvalidSyntaxErr (w + 2) v e))
  | Ret (name, defaultValue, w, None) =>
    expandAll lookupEnv [] (drop (Z.to_nat w) rest) false
      (append (append (allocated buf) (removelast lit))
         (if snd (LookupEnv lookupEnv name)
          then fst (LookupEnv lookupEnv name) else defaultValue))
  | _ => Done (lit, true, append (allocated buf) (removelast lit))
  end.
Proof.
  unfold expandAll. simpl.
  destruct (varInfo rest) as [[[[name defaultValue] w] [e|]]| |];
    try reflexivity.
  destruct (LookupEnv lookupEnv name) as [val ok]. simpl.
  apply expandRest_fuel; rewrite length_drop; lia.
Qed.

(** Induction along the run of the main loop. *)
Lemma expandAll_ind (P : list ascii -> list ascii -> bool -> bytes -> Prop) :
  (forall lit dollar buf, P lit [] dollar buf) ->
  (forall lit rest buf,
     P (lit ++ ["$"%char]) rest true buf ->
     P lit ("$"%char :: rest) false buf) ->
  (forall lit rest buf,
     P [] rest false (append buf lit) ->
     P lit ("$"%char :: rest) true buf) ->
  (forall lit rest buf,
     P (lit ++ ["{"%char]) rest false buf ->
     P lit ("{"%char :: rest) false buf) ->
  (forall lit rest buf,
     (forall k buf', P [] (drop k rest) false buf') ->
     P lit ("{"%char :: rest) true buf) ->
  (forall c lit rest dollar buf,
     Ascii.eqb c "$"%char = false -> Ascii.eqb c "{"%char = false ->
     P (lit ++ [c]) rest false buf ->
     P lit (c :: rest) dollar buf) ->
  forall lit rest dollar buf, P lit rest dollar buf.
Proof.
  intros Hnil Hd1 Hd2 Hb Href Hother lit rest.
  remember (length rest) as n eqn:Hn.
  assert (Hle : (length rest <= n)%nat) by lia. clear Hn.
  revert lit rest Hle.
  induction n as [|n IH]; intros lit rest Hle dollar buf.
  - destruct rest; [apply Hnil|simpl in Hle; lia].
  - destruct rest as [|c rest]; [apply Hnil|]. simpl in Hle.
    destruct (Ascii.eqb c "$"%char) eqn:Hc.
    { apply Ascii.eqb_eq in Hc. subst c.
      destruct dollar; [apply Hd2|apply Hd1]; apply IH; lia. }
    destruct (Ascii.eqb c "{"%char) eqn:Hc'.
    { apply Ascii.eqb_eq in Hc'. subst c.
      destruct dollar; [apply Href|apply Hb; apply IH; lia].
      intros k buf'. apply IH. rewrite length_drop. lia. }
    apply Hother; auto. apply IH. lia.
Qed.
End ExpandLoop.

Section ExpandFacts.
Context {E : Type} `{Environment E}.
Variable lookupEnv : E.

Lemma contents_allocated buf : contents (allocated buf) = contents buf.
Proof. now destruct buf. Qed.

Lemma allocated_contents buf : allocated buf = Some (contents buf).
Proof. now destruct buf. Qed.

(** An early return of the loop carries an error and no buffer. *)
Lemma expandAll_Return : forall lit rest dollar buf b e,
  expandAll lookupEnv lit rest dollar buf = Return (b, e) ->
  b = None /\ is_Some e.
Proof.
  apply (expandAll_ind
    (fun lit rest dollar buf => forall b e,
       expandAll lookupEnv lit rest dollar buf = Return (b, e) ->
       b = None /\ is_Some e)).
  - intros lit dollar buf b e. rewrite expandAll_nil. discriminate.
  - intros lit rest buf IH b e. rewrite expandAll_dollar_first. apply IH.
  - intros lit rest buf IH b e. rewrite expandAll_dollar_second. apply IH.
  - intros lit rest buf IH b e. rewrite expandAll_brace. apply IH.
  - intros lit rest buf IH b e. rewrite expandAll_ref.
    destruct (varInfo rest) as [[[[name defaultValue] w] [e'|]]| |];
      try discriminate.
    + intros [= <- <-]. eauto.
    + apply IH.
  - intros c lit rest dollar buf Hc1 Hc2 IH b e.
    rewrite expandAll_other by assumption. apply IH.
Qed.

(** Bytes other than [$] are kept for the next flush. *)
Lemma expandAll_plain pre : forall lit rest buf,
  "$"%char ∉ pre ->
  expandAll lookupEnv lit (pre ++ rest) false buf =
  expandAll lookupEnv (lit ++ pre) rest false buf.
Proof.
  induction pre as [|c pre IH]; intros lit rest buf Hpre; simpl.
  - now rewrite app_nil_r.
  - apply not_elem_of_cons in Hpre as [Hc Hpre].
    replace (lit ++ c :: pre) with ((lit ++ [c]) ++ pre)
      by now rewrite <- app_assoc.
    rewrite <- IH by assumption.
    destruct (Ascii.eqb c "{"%char) eqn:Hb.
    + apply Ascii.eqb_eq in Hb. subst c. apply expandAll_brace.
    + apply expandAll_other; [|assumption].
      apply Ascii.eqb_neq. congruence.
Qed.

(** A prefix the loop gets through leaves a state from which the loop
    goes on with what follows. *)
Lemma expandAll_app : forall lit pre dollar buf post lit' dollar' buf',
  expandAll lookupEnv lit pre dollar buf = Done (lit', dollar', buf') ->
  expandAll lookupEnv lit (pre ++ post) dollar buf =
  expandAll lookupEnv lit' post dollar' buf'.
Proof.
  apply (expandAll_ind
    (fun lit pre dollar buf => forall post lit' dollar' buf',
       expandAll lookupEnv lit pre dollar buf = Done (lit', dollar', buf') ->
       expandAll lookupEnv lit (pre ++ post) dollar buf =
       expandAll lookupEnv lit' post dollar' buf')).
  - intros lit dollar buf post lit' dollar' buf'.
    rewrite expandAll_nil. now intros [= <- <- <-].
  - intros lit rest buf IH post lit' dollar' buf'. simpl.
    rewrite !expandAll_dollar_first. apply IH.
  - intros lit rest buf IH post lit' dollar' buf'. simpl.
    rewrite !expandAll_dollar_second. apply IH.
  - intros lit rest buf IH post lit' dollar' buf'. simpl.
    rewrite !expandAll_brace. apply IH.
  - intros lit rest buf IH post lit' dollar' buf'. simpl.
    rewrite !expandAll_ref.
    pose proof (varInfo_inv rest) as Hinv.
    destruct (varInfo rest) as [[[[name defaultValue] w] [e|]]| |] eqn:Hvar;
      try contradiction; [discriminate|].
    rewrite (varInfo_app _ post _ _ _ Hvar).
    apply varInfo_width in Hvar.
    rewrite drop_app_le by (unfold len in Hvar; lia).
    apply IH.
  - intros c lit rest dollar buf Hc1 Hc2 IH post lit' dollar' buf'. simpl.
    rewrite !expandAll_other by assumption. apply IH.
Qed.

Lemma last_drop_Some {A} (k : nat) (l : list A) x :
  last (drop k l) = Some x -> last l = Some x.
Proof.
  intros Hl. rewrite <- (take_drop k l), last_app. now rewrite Hl.
Qed.

Lemma last_cons_Some {A} (c : A) (l : list A) x :
  last l = Some x -> last (c :: l) = Some x.
Proof. intros Hl. rewrite last_cons. now rewrite Hl. Qed.

(** The loop only ends with a pending [$] after a final [$]. *)
Lemma expandAll_pending : forall lit rest dollar buf lit' buf',
  expandAll lookupEnv lit rest dollar buf = Done (lit', true, buf') ->
  rest = [] /\ dollar = true \/ last rest = Some "$"%char.
Proof.
  apply (expandAll_ind
    (fun lit rest dollar buf => forall lit' buf',
       expandAll lookupEnv lit rest dollar buf = Done (lit', true, buf') ->
       rest = [] /\ dollar = true \/ last rest = Some "$"%char)).
  - intros lit dollar buf lit' buf'. rewrite expandAll_nil.
    intros [= <- <- <-]. auto.
  - intros lit rest buf IH lit' buf'. rewrite expandAll_dollar_first.
    intros Hrun. right.
    destruct (IH _ _ Hrun) as [[-> _]|Hlast]; [reflexivity|].
    now apply last_cons_Some.
  - intros lit rest buf IH lit' buf'. rewrite expandAll_dollar_second.
    intros Hrun. right.
    destruct (IH _ _ Hrun) as [[_ [=]]|Hlast]. now apply last_cons_Some.
  - intros lit rest buf IH lit' buf'. rewrite expandAll_brace.
    intros Hrun. right.
    destruct (IH _ _ Hrun) as [[_ [=]]|Hlast]. now apply last_cons_Some.
  - intros lit rest buf IH lit' buf'. rewrite expandAll_ref.
    pose proof (varInfo_inv rest) as Hinv.
    destruct (varInfo rest) as [[[[name defaultValue] w] [e|]]| |];
      try contradiction; [discriminate|].
    intros Hrun. right.
    destruct (IH _ _ _ _ Hrun) as [[_ [=]]|Hlast].
    apply last_cons_Some. now apply last_drop_Some in Hlast.
  - intros c lit rest dollar buf Hc1 Hc2 IH lit' buf'.
    rewrite expandAll_other by assumption.
    intros Hrun. right.
    destruct (IH _ _ Hrun) as [[_ [=]]|Hlast]. now apply last_cons_Some.
Qed.

Lemma expandAll_framed : forall lit rest dollar b1 b2 pre,
  contents b2 = pre ++ contents b1 ->
  framed pre (expandAll lookupEnv lit rest dollar b1)
             (expandAll lookupEnv lit rest dollar b2).
Proof.
  apply (expandAll_ind
    (fun lit rest dollar b1 => forall b2 pre,
       contents b2 = pre ++ contents b1 ->
       framed pre (expandAll lookupEnv lit rest dollar b1)
                  (expandAll lookupEnv lit rest dollar b2))).
  - intros lit dollar b1 b2 pre Hb. rewrite !expandAll_nil. simpl. auto.
  - intros lit rest b1 IH b2 pre Hb. rewrite !expandAll_dollar_first.
    now apply IH.
  - intros lit rest b1 IH b2 pre Hb. rewrite !expandAll_dollar_second.
    apply IH. now rewrite !contents_append, Hb, app_assoc.
  - intros lit rest b1 IH b2 pre Hb. rewrite !expandAll_brace.
    now apply IH.
  - intros lit rest b1 IH b2 pre Hb. rewrite !expandAll_ref.
    assert (Hlit : contents (append (allocated b2) (removelast lit)) =
                   pre ++ contents (append (allocated b1) (removelast lit)))
      by now rewrite !contents_append, !contents_allocated, Hb, app_assoc.
    destruct (varInfo rest) as [[[[name defaultValue] w] [e|]]| |];
      [reflexivity| |unfold framed; auto..].
    apply IH.
    rewrite (contents_append (append (allocated b2) (removelast lit))).
    rewrite (contents_append (append (allocated b1) (removelast lit))).
    now rewrite Hlit, app_assoc.
  - intros c lit rest dollar b1 Hc1 Hc2 IH b2 pre Hb.
    rewrite !expandAll_other by assumption. now apply IH.
Qed.

(** Where an error comes from: a [${] whose parse failed. *)
Lemma expandAll_error : forall lit rest dollar buf,
  (dollar = true -> last lit = Some "$"%char) ->
  forall b e,
  expandAll lookupEnv lit rest dollar buf = Return (b, Some e) ->
  exists pre data name defaultValue w,
    rest = pre ++ "{"%char :: data /\
    last (lit ++ pre) = Some "$"%char /\
    varInfo data = Ret (name, defaultValue, w, Some (err e)) /\
    position e = w + 2 /\
    value e = "$"%char :: "{"%char :: take (Z.to_nat (w + 4)) data.
Proof.
  apply (expandAll_ind
    (fun lit rest dollar buf =>
       (dollar = true -> last lit = Some "$"%char) ->
       forall b e,
       expandAll lookupEnv lit rest dollar buf = Return (b, Some e) ->
       exists pre data name defaultValue w,
         rest = pre ++ "{"%char :: data /\
         last (lit ++ pre) = Some "$"%char /\
         varInfo data = Ret (name, defaultValue, w, Some (err e)) /\
         position e = w + 2 /\
         value e = "$"%char :: "{"%char :: take (Z.to_nat (w + 4)) data)).
  - intros lit dollar buf _ b e. rewrite expandAll_nil. discriminate.
  - intros lit rest buf IH _ b e. rewrite expandAll_dollar_first.
    intros Hrun.
    destruct (IH ltac:(intros _; apply last_snoc) _ _ Hrun)
      as (pre & data & name & dv & w & -> & Hlast & Hrest).
    exists ("$"%char :: pre), data, name, dv, w.
    rewrite <- app_assoc in Hlast. auto.
  - intros lit rest buf IH _ b e. rewrite expandAll_dollar_second.
    intros Hrun.
    destruct (IH ltac:(discriminate) _ _ Hrun)
      as (pre & data & name & dv & w & -> & Hlast & Hrest).
    exists ("$"%char :: pre), data, name, dv, w. simpl in Hlast.
    rewrite last_app. rewrite (last_cons_Some _ _ _ Hlast). auto.
  - intros lit rest buf IH _ b e. rewrite expandAll_brace.
    intros Hrun.
    destruct (IH ltac:(discriminate) _ _ Hrun)
      as (pre & data & name & dv & w & -> & Hlast & Hrest).
    exists ("{"%char :: pre), data, name, dv, w.
    rewrite <- app_assoc in Hlast. auto.
  - intros lit rest buf IH Hlit b e. rewrite expandAll_ref.
    destruct (varInfo rest) as [[[[name dv] w] [e'|]]| |] eqn:Hvar;
      try discriminate.
    + intros [= _ <-]. exists [], rest, name, dv, w. simpl.
      rewrite app_nil_r. auto.
    + intros Hrun.
      destruct (IH _ _ ltac:(discriminate) _ _ Hrun)
        as (pre & data & name' & dv' & w' & Hdrop & Hlast & Hrest).
      exists ("{"%char :: take (Z.to_nat w) rest ++ pre),
        data, name', dv', w'.
      simpl in Hlast. split; [|split]; [| |exact Hrest].
      * simpl. rewrite <- app_assoc, <- Hdrop. now rewrite take_drop.
      * assert (Hl : last ("{"%char :: take (Z.to_nat w) rest ++ pre) =
                     Some "$"%char)
          by (apply last_cons_Some; rewrite last_app; now rewrite Hlast).
        rewrite last_app. now rewrite Hl.
  - intros c lit rest dollar buf Hc1 Hc2 IH _ b e.
    rewrite expandAll_other by assumption.
    intros Hrun.
    destruct (IH ltac:(discriminate) _ _ Hrun)
      as (pre & data & name & dv & w & -> & Hlast & Hrest).
    exists (c :: pre), data, name, dv, w.
    rewrite <- app_assoc in Hlast. auto.
Qed.

Lemma allocated_append buf xs :
  allocated (append buf xs) = append (allocated buf) xs.
Proof. destruct buf as [b|]; [reflexivity|]. now destruct xs. Qed.

(** Flushing the first part of the pending run early changes nothing. *)
Lemma expandAll_flush : forall lit rest dollar buf l1 l2,
  lit = l1 ++ l2 -> (dollar = true -> l2 <> []) ->
  finishRest (expandAll lookupEnv lit rest dollar buf) =
  finishRest (expandAll lookupEnv l2 rest dollar (append buf l1)).
Proof.
  apply (expandAll_ind
    (fun lit rest dollar buf => forall l1 l2,
       lit = l1 ++ l2 -> (dollar = true -> l2 <> []) ->
       finishRest (expandAll lookupEnv lit rest dollar buf) =
       finishRest (expandAll lookupEnv l2 rest dollar (append buf l1)))).
  - intros lit dollar buf l1 l2 -> _. rewrite !expandAll_nil. simpl.
    now rewrite append_append.
  - intros lit rest buf IH l1 l2 -> _. rewrite !expandAll_dollar_first.
    apply IH; [now rewrite app_assoc|]. intros _. now destruct l2.
  - intros lit rest buf _ l1 l2 -> _. rewrite !expandAll_dollar_second.
    now rewrite append_append.
  - intros lit rest buf IH l1 l2 -> _. rewrite !expandAll_brace.
    apply IH; [now rewrite app_assoc|discriminate].
  - intros lit rest buf _ l1 l2 -> Hl2. rewrite !expandAll_ref.
    rewrite removelast_app by auto.
    rewrite allocated_append, append_append.
    pose proof (varInfo_inv rest) as Hinv.
    destruct (varInfo rest) as [[[[name dv] w] [e|]]| |];
      try contradiction; reflexivity.
  - intros c lit rest dollar buf Hc1 Hc2 IH l1 l2 -> _.
    rewrite !expandAll_other by assumption.
    apply IH; [now rewrite app_assoc|discriminate].
Qed.
End ExpandFacts.

(** The loop only asks the provider for well-formed names. *)
Lemma expandAll_ext {E1 E2 : Type} `{Environment E1} `{Environment E2}
    (p1 : E1) (p2 : E2) :
  (forall name, validName name = true ->
     LookupEnv p1 name = LookupEnv p2 name) ->
  forall lit rest dollar buf,
  expandAll p1 lit rest dollar buf = expandAll p2 lit rest dollar buf.
Proof.
  intros Hext.
  apply (expandAll_ind
    (fun lit rest dollar buf =>
       expandAll p1 lit rest dollar buf = expandAll p2 lit rest dollar buf)).
  - reflexivity.
  - intros lit rest buf IH. now rewrite !expandAll_dollar_first.
  - intros lit rest buf IH. now rewrite !expandAll_dollar_second.
  - intros lit rest buf IH. now rewrite !expandAll_brace.
  - intros lit rest buf IH. rewrite !expandAll_ref.
    pose proof (varInfo_inv rest) as Hinv.
    destruct (varInfo rest) as [[[[name dv] w] [e|]]| |];
      try reflexivity.
    destruct Hinv as [Hname _]. rewrite (Hext name Hname). apply IH.
  - intros c lit rest dollar buf Hc1 Hc2 IH.
    now rewrite !expandAll_other.
Qed.

(** ** The examples of the documentation and of the tests *)

Example Expand_documentation :
  Expand
    (bs "the ${fox_speed} ${fox_color|brown} fox jumps over the ${canine_temperament|alert} dog: $$, ${FAKE_VAR|hello\\beautiful {world\}}, ${FAKE_VAR|$3.50}")
    foxEnv None =
  Ret (Some (bs "the quick brown fox jumps over the lazy dog: $, hello\beautiful {world}, $3.50"),
       None).
Proof. vm_compute. reflexivity. Qed.

Example Expand_home :
  Expand (bs "{${HOME}}") homeEnv None = Ret (Some (bs "{/usr/gopher}"), None).
Proof. vm_compute. reflexivity. Qed.

Example Expand_lone_dollars :
  Expand (bs "$") emptyEnv None = Ret (Some (bs "$"), None) /\
  Expand (bs "$}") emptyEnv None = Ret (Some (bs "$}"), None) /\
  Expand (bs "start$+middle$^end$") emptyEnv None =
    Ret (Some (bs "start$+middle$^end$"), None).
Proof. repeat split; reflexivity. Qed.

Example Expand_empty_name :
  Expand (bs "abc${}") emptyEnv None =
  Ret (None, Some (mkInvalidSyntaxErr 2 (bs "${}") errEmptyString)).
Proof. reflexivity. Qed.

Example readVarName_errors :
  readVarName (bs "2asdf|jkl;") = Ret ([], 0, Some errInvalidStartingCharacter)
  /\ readVarName (bs "as*f}") = Ret ([], 2, Some errInvalidCharacter)
  /\ readVarName (bs "this_is_a_var_name|this is a value} more") =
     Ret (bs "this_is_a_var_name", 19, None).
Proof. repeat split; reflexivity. Qed.

Example readDefaultValue_benchmarks :
  readDefaultValue (bs "this is a value} this is some more text") =
    Ret (bs "this is a value", 16, None) /\
  readDefaultValue (bs "{this\} is a {value\}} this is some more text") =
    Ret (bs "{this} is a {value}", 22, None).
Proof. repeat split; reflexivity. Qed.

(** * The specification's claims *)

Lemma validNameFirstChar_pattern c :
  validNameFirstChar c = isLetter c || isUnderscore c.
Proof. destruct c as [[] [] [] [] [] [] [] []]; reflexivity. Qed.

Lemma validNameChar_pattern c :
  validNameChar c = isLetter c || isDigit c || isUnderscore c.
Proof. destruct c as [[] [] [] [] [] [] [] []]; reflexivity. Qed.

Lemma validName_pattern name : validName name = matchesNamePattern name.
Proof.
  destruct name as [|c cs]; [reflexivity|]. simpl.
  rewrite validNameFirstChar_pattern. f_equal.
  induction cs as [|c' cs IH]; [reflexivity|]. simpl.
  now rewrite validNameChar_pattern, IH.
Qed.

Lemma finishRest_success {E : Type} `{Environment E} (p : E) lit rest dollar
    buf b :
  finishRest (expandAll p lit rest dollar buf) = (b, None) ->
  exists lit' dollar' buf',
    expandAll p lit rest dollar buf = Done (lit', dollar', buf') /\
    b = append buf' lit'.
Proof.
  destruct (expandAll p lit rest dollar buf) as [[b' e]|[[lit' dollar'] buf']]
    eqn:Hrun; simpl.
  - intros [= -> ->]. apply expandAll_Return in Hrun as [_ [e He]].
    discriminate.
  - intros [= <-]. eauto.
Qed.

(** After a template that expands and does not end in [$], the loop has no
    [$] pending. *)
Lemma Expand_prefix {E : Type} `{Environment E} (p : E) pre buf b1 :
  Expand pre p buf = Ret (b1, None) ->
  last pre <> Some "$"%char ->
  exists lit' buf',
    expandAll p [] pre false buf = Done (lit', false, buf') /\
    b1 = append buf' lit'.
Proof.
  rewrite Expand_expandAll. intros [= Hfin] Hlast.
  apply finishRest_success in Hfin as (lit' & dollar' & buf' & Hrun & ->).
  exists lit', buf'. split; [|reflexivity].
  destruct dollar'; [|exact Hrun].
  apply expandAll_pending in Hrun as [[_ [=]]|Hl]. contradiction.
Qed.

(** Behind a template that expands and does not end in [$], the expansion
    goes on as from a fresh start. *)
Lemma Expand_app {E : Type} `{Environment E} (p : E) pre post buf b1 :
  Expand pre p buf = Ret (b1, None) ->
  last pre <> Some "$"%char ->
  Expand (pre ++ post) p buf = Expand post p b1.
Proof.
  intros Hpre Hlast.
  destruct (Expand_prefix p pre buf b1 Hpre Hlast)
    as (lit' & buf' & Hrun & ->).
  rewrite !Expand_expandAll.
  rewrite (expandAll_app p _ _ _ _ _ _ _ _ Hrun). f_equal.
  rewrite (expandAll_flush p lit' post false buf' lit' []);
    [reflexivity|now rewrite app_nil_r|discriminate].
Qed.

Lemma Expand_pair {E : Type} `{Environment E} (p : E) post buf :
  Expand ("$"%char :: "$"%char :: post) p buf =
  Expand post p (append buf ["$"%char]).
Proof.
  rewrite !Expand_expandAll.
  now rewrite expandAll_dollar_first, expandAll_dollar_second.
Qed.

Lemma append_nil buf : append buf [] = buf.
Proof. destruct buf; simpl; [now rewrite app_nil_r|reflexivity]. Qed.

Lemma Expand_pairs {E : Type} `{Environment E} (p : E) post (k : nat) :
  forall buf,
  Expand (repeat "$"%char (2 * k) ++ post) p buf =
  Expand post p (append buf (repeat "$"%char k)).
Proof.
  induction k as [|k IH]; intros buf.
  - simpl. now rewrite append_nil.
  - replace (2 * S k)%nat with (S (S (2 * k))) by lia. simpl repeat.
    simpl app. rewrite Expand_pair, IH, append_append. reflexivity.
Qed.

(** C1 as stated fails inside a default value.  The two [$] of
    ["${a|$$}"] are adjacent and do not begin a reference, yet with a
    provider that does not resolve [a] the output holds both of them and not
    one. *)
Lemma dollar_pair_in_default_kept :
  Expand (bs "${a|$$}") emptyEnv None = Ret (Some (bs "$$"), None) /\
  Expand (bs "${a|$$}") emptyEnv None <> Ret (Some (bs "$"), None).
Proof. split; [reflexivity|discriminate]. Qed.

(** C1, amended: pairs of adjacent [$] outside every reference, that is,
    pairs that follow a prefix the expansion gets through, the prefix not
    ending in a [$] of its own, each put exactly one [$] after the prefix's
    output, and the expansion goes on behind them as from a fresh start;
    [Expand("a$$b", p, nil)] is ["a$b"] for every provider. *)
Theorem literal_dollar_collapses
    {E : Type} `{Environment E} (p : E) (pre post : list ascii)
    (buf b1 : bytes) (k : nat) :
  Expand pre p buf = Ret (b1, None) ->
  last pre <> Some "$"%char ->
  Expand (pre ++ "$"%char :: "$"%char :: post) p buf =
    Expand post p (append b1 ["$"%char]) /\
  Expand (pre ++ repeat "$"%char (2 * k) ++ post) p buf =
    Expand post p (append b1 (repeat "$"%char k)) /\
  Expand (bs "a$$b") p None = Ret (Some (bs "a$b"), None).
Proof.
  intros Hpre Hlast. split; [|split; [|reflexivity]].
  - now rewrite (Expand_app p pre _ buf b1), Expand_pair.
  - now rewrite (Expand_app p pre _ buf b1), Expand_pairs.
Qed.

Lemma literal_dollar_collapses_witness :
  Expand (bs "x{y}") emptyEnv (Some (bs "pre:")) =
    Ret (Some (bs "pre:x{y}"), None) /\
  last (bs "x{y}") <> Some "$"%char /\
  (Expand (bs "x{y}" ++ "$"%char :: "$"%char :: bs "z$$") emptyEnv
     (Some (bs "pre:")) =
   Expand (bs "z$$") emptyEnv (append (Some (bs "pre:x{y}")) ["$"%char]) /\
   Expand (bs "x{y}" ++ repeat "$"%char (2 * 3) ++ bs "z$$") emptyEnv
     (Some (bs "pre:")) =
   Expand (bs "z$$") emptyEnv
     (append (Some (bs "pre:x{y}")) (repeat "$"%char 3)) /\
   Expand (bs "a$$b") emptyEnv None = Ret (Some (bs "a$b"), None)).
Proof.
  split; [reflexivity|]. split; [discriminate|].
  apply (literal_dollar_collapses emptyEnv (bs "x{y}") (bs "z$$")
           (Some (bs "pre:")) (Some (bs "pre:x{y}")) 3).
  - reflexivity.
  - discriminate.
Defined.

Lemma drop_reference (name mid post : list ascii) (c d : ascii) :
  drop (Z.to_nat (len name + 1 + (len mid + 1)))
    (name ++ c :: mid ++ d :: post) = post.
Proof.
  replace (name ++ c :: mid ++ d :: post)
    with ((name ++ c :: mid ++ [d]) ++ post)
    by (rewrite <- app_assoc; simpl; now rewrite <- app_assoc).
  replace (Z.to_nat (len name + 1 + (len mid + 1)))
    with (length (name ++ c :: mid ++ [d])).
  - apply drop_app_length.
  - unfold len. rewrite length_app. simpl. rewrite length_app. simpl. lia.
Qed.

(** A reference with a default value whose name the provider lacks. *)
Lemma Expand_default {E : Type} `{Environment E} (p : E)
    (pre post name v : list ascii) (buf b1 : bytes) :
  Expand pre p buf = Ret (b1, None) ->
  last pre <> Some "$"%char ->
  validName name = true ->
  snd (LookupEnv p name) = false ->
  Expand (pre ++ bs "${" ++ name ++ "|"%char :: escape v ++ "}"%char :: post)
    p buf =
  Expand post p (Some (contents b1 ++ v)).
Proof.
  intros Hpre Hlast Hname Hmiss.
  destruct (Expand_prefix p pre buf b1 Hpre Hlast)
    as (lit' & buf' & Hrun & ->).
  rewrite !Expand_expandAll.
  rewrite (expandAll_app p _ _ _ _ _ _ _ _ Hrun). simpl.
  rewrite expandAll_dollar_first, expandAll_ref.
  rewrite varInfo_pipe by assumption.
  rewrite Hmiss, drop_reference, removelast_last.
  rewrite allocated_contents, contents_append. simpl.
  now rewrite <- app_assoc.
Qed.

(** C2: after a prefix the expansion gets through, a reference
    [${name|default}] whose name the provider does not resolve appends the
    un-escaped default value, and the expansion goes on behind its closing
    brace; only the first [|] ends the name, so ["${fox_color|brown}"] gives
    ["brown"] and ["${hello|world|foo}"] gives ["world|foo"] for a provider
    that lacks these names. *)
Theorem default_on_miss
    {E : Type} `{Environment E} (p : E) (pre post name v : list ascii)
    (buf b1 : bytes) :
  Expand pre p buf = Ret (b1, None) ->
  last pre <> Some "$"%char ->
  validName name = true ->
  snd (LookupEnv p name) = false ->
  Expand (pre ++ bs "${" ++ name ++ "|"%char :: escape v ++ "}"%char :: post)
    p buf =
    Expand post p (Some (contents b1 ++ v)) /\
  (snd (LookupEnv p (bs "fox_color")) = false ->
   Expand (bs "${fox_color|brown}") p None = Ret (Some (bs "brown"), None)) /\
  (snd (LookupEnv p (bs "hello")) = false ->
   Expand (bs "${hello|world|foo}") p None =
   Ret (Some (bs "world|foo"), None)).
Proof.
  intros Hpre Hlast Hname Hmiss. split; [now apply Expand_default|].
  split; intros Hmiss'.
  - apply (Expand_default p [] [] (bs "fox_color") (bs "brown") None None);
      [reflexivity|discriminate|reflexivity|exact Hmiss'].
  - apply (Expand_default p [] [] (bs "hello") (bs "world|foo") None None);
      [reflexivity|discriminate|reflexivity|exact Hmiss'].
Qed.

Lemma default_on_miss_witness :
  Expand (bs "the ") emptyEnv None = Ret (Some (bs "the "), None) /\
  last (bs "the ") <> Some "$"%char /\
  validName (bs "FAKE_VAR") = true /\
  snd (LookupEnv emptyEnv (bs "FAKE_VAR")) = false /\
  (Expand
     (bs "the " ++ bs "${" ++ bs "FAKE_VAR" ++
      "|"%char :: escape (bs "hello\beautiful {world}") ++ "}"%char :: bs " fox")
     emptyEnv None =
     Expand (bs " fox") emptyEnv
       (Some (contents (Some (bs "the ")) ++ bs "hello\beautiful {world}")) /\
   (snd (LookupEnv emptyEnv (bs "fox_color")) = false ->
    Expand (bs "${fox_color|brown}") emptyEnv None =
    Ret (Some (bs "brown"), None)) /\
   (snd (LookupEnv emptyEnv (bs "hello")) = false ->
    Expand (bs "${hello|world|foo}") emptyEnv None =
    Ret (Some (bs "world|foo"), None))).
Proof.
  split; [reflexivity|]. split; [discriminate|].
  split; [reflexivity|]. split; [reflexivity|].
  apply (default_on_miss emptyEnv (bs "the ") (bs " fox") (bs "FAKE_VAR")
           (bs "hello\beautiful {world}") None (Some (bs "the "))).
  - reflexivity.
  - discriminate.
  - reflexivity.
  - reflexivity.
Defined.

(** C3: [readDefaultValue] reads a value escaped as documented ([\}] for
    [}], [\\] for [\]) back up to the first unescaped [}] and reports the
    bytes it consumed; on the 7 bytes [as\}}f}] it gives [as}] and 5, on the
    9 bytes [as\\\}}f}] it gives [as\}] and 7. *)
Theorem default_value_unescaped :
  (len (bs "as\}}f}") = 7 /\
   readDefaultValue (bs "as\}}f}") = Ret (bs "as}", 5, None)) /\
  (len (bs "as\\\}}f}") = 9 /\
   readDefaultValue (bs "as\\\}}f}") = Ret (bs "as\}", 7, None)) /\
  (forall v rest,
     readDefaultValue (escape v ++ "}"%char :: rest) =
     Ret (v, len (escape v) + 1, None)) /\
  (forall v, escape ("}"%char :: v) = "\"%char :: "}"%char :: escape v) /\
  (forall v, escape ("\"%char :: v) = "\"%char :: "\"%char :: escape v).
Proof.
  repeat split; try reflexivity. intros v rest. apply readDefaultValue_ok.
Qed.

Lemma slice_error_value pre0 data w :
  0 <= w ->
  slice (pre0 ++ "$"%char :: "{"%char :: data) (len pre0)
    (Z.min (len (pre0 ++ "$"%char :: "{"%char :: data))
       (len pre0 + 1 + w + 5)) =
  Ret ("$"%char :: "{"%char :: take (Z.to_nat (w + 4)) data).
Proof.
  intros Hw. set (k := Z.to_nat (w + 4)).
  pose proof (slice_app pre0 ("$"%char :: "{"%char :: take k data)
                (drop k data)) as Hs.
  simpl in Hs. rewrite take_drop in Hs. rewrite <- Hs. f_equal.
  rewrite !len_app, !len_cons. unfold k. rewrite len_take_min by lia. lia.
Qed.

(** A reference whose parse fails, behind a prefix the expansion gets
    through. *)
Lemma Expand_syntax_error {E : Type} `{Environment E} (p : E)
    (pre data name defaultValue : list ascii) (buf b1 : bytes) (w : Z)
    (cause : parseErr) :
  Expand pre p buf = Ret (b1, None) ->
  last pre <> Some "$"%char ->
  varInfo data = Ret (name, defaultValue, w, Some cause) ->
  Expand (pre ++ bs "${" ++ data) p buf =
  Ret (None,
       Some (mkInvalidSyntaxErr (w + 2)
               (bs "${" ++ take (Z.to_nat (w + 4)) data) cause)).
Proof.
  intros Hpre Hlast Hvar.
  destruct (Expand_prefix p pre buf b1 Hpre Hlast)
    as (lit' & buf' & Hrun & ->).
  rewrite Expand_expandAll.
  rewrite (expandAll_app p _ _ _ _ _ _ _ _ Hrun). simpl.
  now rewrite expandAll_dollar_first, expandAll_ref, Hvar.
Qed.

(** C4: every syntax error [Expand] returns comes from a [${] at some
    index [j] of the [{] whose parse by [varInfo] failed with width [w]: the
    position is [w + 2], the cause is that of [varInfo], and the value is
    the template from the [$] to [min(len(tmpl), j + w + 5)]; conversely the
    first reference whose parse fails yields that error;
    [Expand("${asdf", p, nil)] fails as unterminated at position 6 with
    value ["${asdf"]. *)
Theorem syntax_error_position
    {E : Type} `{Environment E} (p : E) (tmpl : list ascii) (buf b : bytes)
    (e : invalidSyntaxErr) :
  Expand tmpl p buf = Ret (b, Some e) ->
  (exists j data name defaultValue w,
     index tmpl (j - 1) = Ret "$"%char /\
     index tmpl j = Ret "{"%char /\
     slice tmpl (j + 1) (len tmpl) = Ret data /\
     varInfo data = Ret (name, defaultValue, w, Some (err e)) /\
     position e = w + 2 /\
     slice tmpl (j - 1) (Z.min (len tmpl) (j + w + 5)) = Ret (value e)) /\
  (forall pre data name defaultValue w cause b1,
     Expand pre p buf = Ret (b1, None) ->
     last pre <> Some "$"%char ->
     varInfo data = Ret (name, defaultValue, w, Some cause) ->
     Expand (pre ++ bs "${" ++ data) p buf =
     Ret (None,
          Some (mkInvalidSyntaxErr (w + 2)
                  (bs "${" ++ take (Z.to_nat (w + 4)) data) cause))) /\
  Expand (bs "${asdf") p None =
    Ret (None, Some (mkInvalidSyntaxErr 6 (bs "${asdf") errUnterminated)).
Proof.
  intros Hrun.
  split; [|split; [intros; eapply Expand_syntax_error; eauto|reflexivity]].
  rewrite Expand_expandAll in Hrun. injection Hrun as Hfin.
  destruct (expandAll p [] tmpl false buf) as [[b' e']|[[lit' d'] buf']]
    eqn:Hall; simpl in Hfin; [|discriminate].
  injection Hfin as -> ->.
  apply expandAll_error in Hall; [|discriminate].
  destruct Hall as (pre & data & name & dv & w & -> & Hlast & Hvar & Hpos
                    & Hval).
  simpl in Hlast. apply last_Some in Hlast as [pre0 ->].
  exists (len pre0 + 1), data, name, dv, w.
  rewrite <- app_assoc. simpl.
  replace (len pre0 + 1 - 1) with (len pre0) by lia.
  split; [apply index_app|].
  split.
  { pose proof (index_app (pre0 ++ ["$"%char]) "{"%char data) as Hi.
    now rewrite len_app, len_cons, len_nil, <- app_assoc in Hi. }
  split.
  { pose proof (slice_suffix (pre0 ++ ["$"%char; "{"%char]) data) as Hs.
    rewrite len_app, !len_cons, len_nil, <- !app_assoc in Hs. simpl in Hs.
    rewrite <- Hs. f_equal. lia. }
  split; [exact Hvar|]. split; [exact Hpos|].
  rewrite Hval. apply slice_error_value.
  pose proof (varInfo_inv data) as Hinv. rewrite Hvar in Hinv. lia.
Qed.

Lemma syntax_error_position_witness :
  Expand (bs "abc${}") emptyEnv None =
    Ret (None, Some (mkInvalidSyntaxErr 2 (bs "${}") errEmptyString)) /\
  ((exists j data name defaultValue w,
      index (bs "abc${}") (j - 1) = Ret "$"%char /\
      index (bs "abc${}") j = Ret "{"%char /\
      slice (bs "abc${}") (j + 1) (len (bs "abc${}")) = Ret data /\
      varInfo data = Ret (name, defaultValue, w, Some errEmptyString) /\
      2 = w + 2 /\
      slice (bs "abc${}") (j - 1) (Z.min (len (bs "abc${}")) (j + w + 5)) =
        Ret (bs "${}")) /\
   (forall pre data name defaultValue w cause b1,
      Expand pre emptyEnv None = Ret (b1, None) ->
      last pre <> Some "$"%char ->
      varInfo data = Ret (name, defaultValue, w, Some cause) ->
      Expand (pre ++ bs "${" ++ data) emptyEnv None =
      Ret (None,
           Some (mkInvalidSyntaxErr (w + 2)
                   (bs "${" ++ take (Z.to_nat (w + 4)) data) cause))) /\
   Expand (bs "${asdf") emptyEnv None =
     Ret (None, Some (mkInvalidSyntaxErr 6 (bs "${asdf") errUnterminated))).
Proof.
  split; [reflexivity|].
  apply (syntax_error_position emptyEnv (bs "abc${}") None None
           (mkInvalidSyntaxErr 2 (bs "${}") errEmptyString)).
  reflexivity.
Defined.

(** C5: when [Expand] returns a syntax error the buffer it returns is nil,
    whatever buffer it was given. *)
Theorem error_returns_nil
    {E : Type} `{Environment E} (p : E) (tmpl : list ascii) (buf b : bytes)
    (e : invalidSyntaxErr) :
  Expand tmpl p buf = Ret (b, Some e) -> b = None.
Proof.
  rewrite Expand_expandAll. intros [= Hfin].
  destruct (expandAll p [] tmpl false buf) as [[b' e']|[[lit' d'] buf']]
    eqn:Hall; simpl in Hfin; [|discriminate].
  injection Hfin as -> ->. now apply expandAll_Return in Hall as [-> _].
Qed.

Lemma error_returns_nil_witness :
  Expand (bs "abc${x|y} ${2}") emptyEnv (Some (bs "kept")) =
    Ret (None, Some (mkInvalidSyntaxErr 2 (bs "${2}")
                       errInvalidStartingCharacter)) /\
  (None : bytes) = None.
Proof.
  split; [reflexivity|].
  apply (error_returns_nil emptyEnv (bs "abc${x|y} ${2}") (Some (bs "kept"))
           None
           (mkInvalidSyntaxErr 2 (bs "${2}") errInvalidStartingCharacter)).
  reflexivity.
Defined.

(** C6: inside a default value a byte other than [\] and [}] that follows
    an unconsumed [\] makes [readDefaultValue] fail with an invalid escape
    and the offset of that byte; [readDefaultValue("w\orld}")] fails so with
    length 2. *)
Theorem invalid_escape_detected (v rest : list ascii) (c : ascii) :
  c <> "\"%char -> c <> "}"%char ->
  readDefaultValue (escape v ++ "\"%char :: c :: rest) =
    Ret ([], len (escape v) + 1, Some errInvalidEscape) /\
  readDefaultValue (bs "w\orld}") = Ret ([], 2, Some errInvalidEscape).
Proof.
  intros Hc1 Hc2. split; [|reflexivity].
  rewrite readDefaultValue_iterRest, iterRest_escape. simpl.
  apply Ascii.eqb_neq in Hc1, Hc2. now rewrite Hc1, Hc2.
Qed.

Lemma invalid_escape_detected_witness :
  "n"%char <> "\"%char /\ "n"%char <> "}"%char /\
  (readDefaultValue (escape (bs "a}b\c") ++ "\"%char :: "n"%char :: bs "x}") =
     Ret ([], len (escape (bs "a}b\c")) + 1, Some errInvalidEscape) /\
   readDefaultValue (bs "w\orld}") = Ret ([], 2, Some errInvalidEscape)).
Proof.
  split; [discriminate|]. split; [discriminate|].
  apply (invalid_escape_detected (bs "a}b\c") (bs "x}") "n"%char);
    discriminate.
Defined.

(** C7: a name [readVarName] returns matches [[a-zA-Z_][a-zA-Z0-9_]*], a
    leading underscore included; and [Expand] asks the provider for such
    names only: two providers that agree on them give the same result. *)
Theorem names_match_pattern
    {E1 E2 : Type} `{Environment E1} `{Environment E2} (p1 : E1) (p2 : E2)
    (data name tmpl : list ascii) (n : Z) (buf : bytes) :
  readVarName data = Ret (name, n, None) ->
  (forall name', matchesNamePattern name' = true ->
     LookupEnv p1 name' = LookupEnv p2 name') ->
  matchesNamePattern name = true /\
  Expand tmpl p1 buf = Expand tmpl p2 buf /\
  readVarName (bs "_x1}") = Ret (bs "_x1", 4, None).
Proof.
  intros Hread Hext. split; [|split; [|reflexivity]].
  - pose proof (readVarName_inv data) as Hinv.
    rewrite Hread in Hinv. destruct Hinv as (d & rest & _ & _ & Hname & _).
    now rewrite <- validName_pattern.
  - rewrite !Expand_expandAll. f_equal. f_equal.
    apply expandAll_ext. intros name' Hname'. apply Hext.
    now rewrite <- validName_pattern.
Qed.

Lemma names_match_pattern_witness :
  readVarName (bs "fox_speed|slow}") = Ret (bs "fox_speed", 10, None) /\
  (forall name', matchesNamePattern name' = true ->
     LookupEnv homeEnv name' = LookupEnv wellFormedOnly name') /\
  (matchesNamePattern (bs "fox_speed") = true /\
   Expand (bs "{${HOME}} ${x|y}") homeEnv None =
     Expand (bs "{${HOME}} ${x|y}") wellFormedOnly None /\
   readVarName (bs "_x1}") = Ret (bs "_x1", 4, None)).
Proof.
  assert (Hext : forall name', matchesNamePattern name' = true ->
            LookupEnv homeEnv name' = LookupEnv wellFormedOnly name').
  { intros name' Hname'. unfold wellFormedOnly, LookupEnv at 2, envFunc_env.
    now rewrite Hname'. }
  split; [reflexivity|]. split; [exact Hext|].
  apply (names_match_pattern homeEnv wellFormedOnly (bs "fox_speed|slow}")
           (bs "fox_speed") (bs "{${HOME}} ${x|y}") 10 None).
  - reflexivity.
  - exact Hext.
Defined.

(** C8: on success the buffer [Expand] returns is the buffer it was given
    followed by the expansion of the template, that is by what [Expand]
    yields from a nil buffer. *)
Theorem expand_appends
    {E : Type} `{Environment E} (p : E) (tmpl : list ascii) (buf b : bytes) :
  Expand tmpl p buf = Ret (b, None) ->
  exists b0,
    Expand tmpl p None = Ret (b0, None) /\
    contents b = contents buf ++ contents b0.
Proof.
  rewrite !Expand_expandAll. intros [= Hfin].
  apply finishRest_success in Hfin as (lit' & dollar' & buf' & Hrun & ->).
  assert (Hframe : framed (contents buf) (expandAll p [] tmpl false None)
                     (expandAll p [] tmpl false buf))
    by (apply expandAll_framed; symmetry; apply app_nil_r).
  rewrite Hrun in Hframe.
  destruct (expandAll p [] tmpl false None) as [res|[[lit0 d0] b0]];
    [contradiction|].
  destruct Hframe as (-> & -> & Hb).
  exists (append b0 lit'). split; [reflexivity|].
  now rewrite !contents_append, Hb, app_assoc.
Qed.

Lemma expand_appends_witness :
  Expand (bs "{${HOME}}$$") homeEnv (Some (bs "cd ")) =
    Ret (Some (bs "cd {/usr/gopher}$"), None) /\
  exists b0,
    Expand (bs "{${HOME}}$$") homeEnv None = Ret (b0, None) /\
    contents (Some (bs "cd {/usr/gopher}$")) =
    contents (Some (bs "cd ")) ++ contents b0.
Proof.
  split; [reflexivity|].
  apply (expand_appends homeEnv (bs "{${HOME}}$$") (Some (bs "cd "))
           (Some (bs "cd {/usr/gopher}$"))).
  reflexivity.
Defined.

(** C9: a template without [$] expands to itself, appended to the buffer,
    for every provider. *)
Theorem literal_text_unchanged
    {E : Type} `{Environment E} (p : E) (tmpl : list ascii) (buf : bytes) :
  "$"%char ∉ tmpl ->
  Expand tmpl p buf = Ret (append buf tmpl, None).
Proof.
  intros Hplain. rewrite Expand_expandAll.
  rewrite <- (app_nil_r tmpl) at 1.
  now rewrite expandAll_plain.
Qed.

Lemma literal_text_unchanged_witness :
  ("$"%char ∉ bs "a{b}|c\d") /\
  Expand (bs "a{b}|c\d") homeEnv (Some (bs ">")) =
    Ret (append (Some (bs ">")) (bs "a{b}|c\d"), None).
Proof.
  assert (Hplain : "$"%char ∉ bs "a{b}|c\d").
  { intros Hin. repeat (apply elem_of_cons in Hin as [Hin|Hin];
                        [discriminate|]).
    now apply elem_of_nil in Hin. }
  split; [exact Hplain|].
  apply (literal_text_unchanged homeEnv (bs "a{b}|c\d") (Some (bs ">"))).
  exact Hplain.
Defined.

#[global] Arguments Expand_nilable_loop : simpl never.

Lemma Expand_nilable_loop_eq {E : Type} `{Environment E} fuel tmpl
    (lookupEnv : option E) i j dollar buf :
  Expand_nilable_loop fuel tmpl lookupEnv i j dollar buf =
  if negb (j <? len tmpl) then Ret (Done (i, buf)) else
  match fuel with
  | O => OutOfFuel
  | S fuel =>
    c ← index tmpl j;
    if Ascii.eqb c "$"%char then
      if negb dollar then
        Expand_nilable_loop fuel tmpl lookupEnv i (j + 1) true buf
      else
        lit ← slice tmpl i j;
        Expand_nilable_loop fuel tmpl lookupEnv (j + 1) (j + 1) false
          (append buf lit)
    else if Ascii.eqb c "{"%char then
      if negb dollar then
        Expand_nilable_loop fuel tmpl lookupEnv i (j + 1) dollar buf
      else
        let buf := match buf with None => Some [] | Some _ => buf end in
        lit ← slice tmpl i (j - 1);
        let buf := append buf lit in
        data ← slice tmpl (j + 1) (len tmpl);
        '(name, defaultValue, w, e) ← varInfo data;
        match e with
        | Some e =>
          let errStringEnd := j + w + 5 in
          let errStringEnd :=
            if len tmpl <? errStringEnd then len tmpl else errStringEnd in
          v ← slice tmpl (j - 1) errStringEnd;
          Ret (Return (None, Some (mkInvalidSyntaxErr (w + 2) v e)))
        | None =>
          found ← callLookupEnv lookupEnv name;
          let '(val, ok) := (found : list ascii * bool) in
          let buf := if ok then append buf val else append buf defaultValue in
          let j := j + w in
          Expand_nilable_loop fuel tmpl lookupEnv (j + 1) (j + 1) false buf
        end
    else Expand_nilable_loop fuel tmpl lookupEnv i (j + 1) false buf
  end.
Proof. destruct fuel; reflexivity. Qed.

(** With a provider that is not nil the loop is the loop of [Expand]. *)
Lemma Expand_nilable_loop_Some {E : Type} `{Environment E} (p : E) tmpl fuel :
  forall i j dollar buf,
  Expand_nilable_loop fuel tmpl (Some p) i j dollar buf =
  Expand_loop fuel tmpl p i j dollar buf.
Proof.
  induction fuel as [|fuel IH]; intros i j dollar buf;
    rewrite Expand_nilable_loop_eq, Expand_loop_eq; [reflexivity|].
  destruct (negb (j <? len tmpl)); [reflexivity|].
  destruct (index tmpl j) as [c| |]; [|reflexivity..]. rewrite !bind_Ret.
  destruct (Ascii.eqb c "$"%char).
  { destruct (negb dollar); [apply IH|].
    destruct (slice tmpl i j) as [lit| |]; [|reflexivity..].
    rewrite !bind_Ret. apply IH. }
  destruct (Ascii.eqb c "{"%char); [|apply IH].
  destruct (negb dollar); [apply IH|]. cbv zeta.
  destruct (slice tmpl i (j - 1)) as [lit| |]; [|reflexivity..].
  rewrite !bind_Ret.
  destruct (slice tmpl (j + 1) (len tmpl)) as [data| |]; [|reflexivity..].
  rewrite !bind_Ret.
  destruct (varInfo data) as [[[[name defaultValue] w] [e|]]| |];
    [reflexivity| |reflexivity..].
  rewrite !bind_Ret. cbv beta iota. unfold callLookupEnv.
  rewrite bind_Ret. destruct (LookupEnv p name) as [val ok]. apply IH.
Qed.

Lemma Expand_nilable_Some {E : Type} `{Environment E} (p : E) tmpl buf :
  Expand_nilable tmpl (Some p) buf = Expand tmpl p buf.
Proof.
  unfold Expand_nilable, Expand. now rewrite Expand_nilable_loop_Some.
Qed.

(** C10 as stated fails for a nil provider: [Expand] calls
    [lookupEnv.LookupEnv(name)] without a guard, so with a nil [Environment]
    it panics as soon as a reference parses, here on ["${a}"]. *)
Lemma nil_provider_panics :
  Expand_nilable (E := MapEnvironment) (bs "${a}") None None = Panic /\
  ~ exists r, Expand_nilable (E := MapEnvironment) (bs "${a}") None None =
              Ret r.
Proof.
  assert (Hrun : Expand_nilable (E := MapEnvironment) (bs "${a}") None None =
                 Panic) by reflexivity.
  split; [exact Hrun|]. intros [r Hr]. rewrite Hrun in Hr. discriminate.
Qed.

(** C10, amended: [readVarName], [readDefaultValue] and [varInfo] return on
    every input, and so does [Expand] for every template and buffer when its
    provider is not nil and its lookup returns: no index or slice is out of
    range, and [Expand] returns either a buffer without an error or an error
    without a buffer. *)
Theorem no_panic
    {E : Type} `{Environment E} (p : E) (data tmpl : list ascii)
    (buf : bytes) :
  (exists r, readVarName data = Ret r) /\
  (exists r, readDefaultValue data = Ret r) /\
  (exists r, varInfo data = Ret r) /\
  ((exists b, Expand tmpl p buf = Ret (b, None)) \/
   (exists e, Expand tmpl p buf = Ret (None, Some e))) /\
  ((exists b, Expand_nilable tmpl (Some p) buf = Ret (b, None)) \/
   (exists e, Expand_nilable tmpl (Some p) buf = Ret (None, Some e))).
Proof.
  assert (Hexpand : (exists b, Expand tmpl p buf = Ret (b, None)) \/
                    (exists e, Expand tmpl p buf = Ret (None, Some e))).
  { rewrite Expand_expandAll.
    destruct (expandAll p [] tmpl false buf) as [[b e]|[[lit' d'] buf']]
      eqn:Hall; simpl; [|eauto].
    apply expandAll_Return in Hall as [-> [e' ->]]. eauto. }
  split; [|split; [|split; [|split]]].
  - pose proof (readVarName_inv data) as Hinv.
    destruct (readVarName data) as [r| |]; [eauto|contradiction..].
  - pose proof (readDefaultValue_inv data) as Hinv.
    destruct (readDefaultValue data) as [r| |]; [eauto|contradiction..].
  - pose proof (varInfo_inv data) as Hinv.
    destruct (varInfo data) as [r| |]; [eauto|contradiction..].
  - exact Hexpand.
  - now rewrite Expand_nilable_Some.
Qed.

(** * Further properties of the code *)

(** ** readVarName *)

Lemma readVarName_cons c data :
  readVarName (c :: data) =
  if isDelim c then Ret ([], 0, Some errEmptyString)
  else if negb (validNameFirstChar c) then
    Ret ([], 0, Some errInvalidStartingCharacter)
  else
    Ret (match nameLoopRest [c] data with
         | Return res => res
         | Done _ => ([], len (c :: data), Some errUnterminated)
         end).
Proof.
  unfold readVarName. rewrite decide_False by discriminate.
  rewrite index_head. simpl. fold (isDelim c).
  destruct (isDelim c); [reflexivity|].
  destruct (validNameFirstChar c); simpl; [|reflexivity].
  rewrite readVarName_loop_tail. simpl.
  now destruct (nameLoopRest [c] data).
Qed.

Lemma nameLoopRest_stop rest : forall pre,
  match nameLoopRest pre rest with
  | Return (nm, n, Some e) =>
      nm = [] /\ e = errInvalidCharacter /\
      exists mid c rest',
        rest = mid ++ c :: rest' /\ n = len (pre ++ mid) /\
        forallb validNameChar mid = true /\
        isDelim c = false /\ validNameChar c = false
  | Return (_, _, None) => True
  | Done k => forallb validNameChar rest = true /\ k = len (pre ++ rest)
  end.
Proof.
  induction rest as [|c rest IH]; intros pre; simpl.
  - now rewrite app_nil_r.
  - destruct (isDelim c) eqn:Hd; [exact I|].
    destruct (validNameChar c) eqn:Hc; simpl.
    + specialize (IH (pre ++ [c])).
      destruct (nameLoopRest (pre ++ [c]) rest) as [[[nm n] [e|]]|k];
        [|exact I|].
      * destruct IH as (-> & -> & mid & c' & rest' & -> & -> & Hmid & Hd'
                        & Hc').
        split; [reflexivity|]. split; [reflexivity|].
        exists (c :: mid), c', rest'. simpl. rewrite Hc, Hmid.
        now rewrite <- app_assoc.
      * destruct IH as [Hrest ->]. now rewrite Hrest, <- app_assoc.
    + split; [reflexivity|]. split; [reflexivity|].
      exists [], c, rest. now rewrite app_nil_r.
Qed.

Lemma validName_no_delim name c :
  validName name = true -> c ∈ name -> isDelim c = false.
Proof.
  destruct name as [|c0 cs]; [discriminate|]. simpl.
  intros [Hc0 Hcs]%andb_true_iff Hin.
  apply validNameChar_not_delim.
  apply elem_of_cons in Hin as [->|Hin].
  - unfold validNameChar. now rewrite Hc0.
  - rewrite forallb_forall in Hcs. apply Hcs. now apply list_elem_of_In.
Qed.

(** X1: what a success of [readVarName] means.  The name is the text of
    [data] before its first [}] or [|]; it is not empty; the width is the
    length of the name plus one, within [data]; and the byte at
    [data[nameLen-1]] is that delimiter. *)
Theorem readVarName_success (data name : list ascii) (n : Z) :
  readVarName data = Ret (name, n, None) ->
  n = len name + 1 /\ n <= len data /\ name <> [] /\
  name `prefix_of` data /\
  (forall c, c ∈ name -> isDelim c = false) /\
  exists d, index data (n - 1) = Ret d /\ isDelim d = true.
Proof.
  intros Hread. pose proof (readVarName_inv data) as Hinv.
  rewrite Hread in Hinv.
  destruct Hinv as (d & rest & -> & Hd & Hname & ->).
  pose proof (len_nonneg rest).
  split; [reflexivity|]. split; [rewrite len_app, len_cons; lia|].
  split; [now destruct name|]. split; [now apply prefix_app_r|].
  split; [intros c; now apply validName_no_delim|].
  exists d. replace (len name + 1 - 1) with (len name) by lia.
  now rewrite index_app.
Qed.

Lemma readVarName_success_witness :
  readVarName (bs "fox_speed|slow} brown") = Ret (bs "fox_speed", 10, None) /\
  (10 = len (bs "fox_speed") + 1 /\ 10 <= len (bs "fox_speed|slow} brown") /\
   bs "fox_speed" <> [] /\
   bs "fox_speed" `prefix_of` bs "fox_speed|slow} brown" /\
   (forall c, c ∈ bs "fox_speed" -> isDelim c = false) /\
   exists d, index (bs "fox_speed|slow} brown") (10 - 1) = Ret d /\
     isDelim d = true).
Proof.
  split; [reflexivity|].
  apply (readVarName_success (bs "fox_speed|slow} brown") (bs "fox_speed") 10).
  reflexivity.
Defined.

Lemma readVarName_failure_cases (data name : list ascii) (n : Z) (e : parseErr) :
  readVarName data = Ret (name, n, Some e) ->
  name = [] /\
  match e with
  | errUnterminated =>
      n = len data /\ (data = [] \/ validName data = true) /\
      forall c, c ∈ data -> isDelim c = false
  | errEmptyString =>
      n = 0 /\ exists c rest, data = c :: rest /\ isDelim c = true
  | errInvalidStartingCharacter =>
      n = 0 /\ exists c rest, data = c :: rest /\
        isDelim c = false /\ validNameFirstChar c = false
  | errInvalidCharacter =>
      exists pre c rest, data = pre ++ c :: rest /\ n = len pre /\
        validName pre = true /\ isDelim c = false /\ validNameChar c = false
  | errInvalidEscape => False
  end.
Proof.
  destruct data as [|c data].
  { unfold readVarName. rewrite decide_True by reflexivity.
    intros [= <- <- <-]. split; [reflexivity|].
    split; [reflexivity|]. split; [now left|].
    intros c Hc. now apply elem_of_nil in Hc. }
  rewrite readVarName_cons.
  destruct (isDelim c) eqn:Hd.
  { intros [= <- <- <-]. split; [reflexivity|]. eauto. }
  destruct (validNameFirstChar c) eqn:Hc; simpl.
  2:{ intros [= <- <- <-]. split; [reflexivity|].
      split; [reflexivity|]. eauto. }
  pose proof (nameLoopRest_stop data [c]) as Hstop.
  destruct (nameLoopRest [c] data) as [[[nm k] [e'|]]|k].
  - intros [= <- <- <-].
    destruct Hstop as (-> & -> & mid & c' & rest' & -> & -> & Hmid & Hd'
                       & Hc').
    split; [reflexivity|]. exists (c :: mid), c', rest'. simpl.
    now rewrite Hc, Hmid.
  - discriminate.
  - intros [= <- <- <-]. destruct Hstop as [Hrest _].
    assert (Hname : validName (c :: data) = true)
      by (simpl; now rewrite Hc, Hrest).
    split; [reflexivity|]. split; [reflexivity|]. split; [now right|].
    intros c'. now apply validName_no_delim.
Qed.

(** X2: what each failure of [readVarName] means.  It returns no name;
    unterminated: [data] is empty or a well-formed name from end to end,
    without [}] or [|], and the width is its length; empty string and
    invalid starting character: the width is 0 and the first byte is a
    delimiter, or is neither a delimiter nor a letter or underscore; invalid
    character: the width is the offset of the first byte that is neither a
    name character nor a delimiter, behind a well-formed name. *)
Theorem readVarName_failure (data name : list ascii) (n : Z) (e : parseErr) :
  readVarName data = Ret (name, n, Some e) ->
  name = [] /\
  match e with
  | errUnterminated =>
      n = len data /\ (data = [] \/ validName data = true) /\
      forall c, c ∈ data -> isDelim c = false
  | errEmptyString =>
      n = 0 /\ exists c rest, data = c :: rest /\ isDelim c = true
  | errInvalidStartingCharacter =>
      n = 0 /\ exists c rest, data = c :: rest /\
        isDelim c = false /\ validNameFirstChar c = false
  | errInvalidCharacter =>
      exists pre c rest, data = pre ++ c :: rest /\ n = len pre /\
        validName pre = true /\ isDelim c = false /\ validNameChar c = false
  | errInvalidEscape => False
  end.
Proof. apply readVarName_failure_cases. Qed.

Lemma readVarName_failure_witness :
  readVarName (bs "as*f}") = Ret ([], 2, Some errInvalidCharacter) /\
  (([] : list ascii) = [] /\
   exists pre c rest, bs "as*f}" = pre ++ c :: rest /\ 2 = len pre /\
     validName pre = true /\ isDelim c = false /\ validNameChar c = false).
Proof.
  split; [reflexivity|].
  apply (readVarName_failure (bs "as*f}") [] 2 errInvalidCharacter).
  reflexivity.
Defined.

(** ** readDefaultValue *)

Lemma iterRest_stop rest : forall i buf escaped,
  match iterRest i rest buf escaped with
  | Return (v, n, e) =>
      v = [] /\ e = Some errInvalidEscape /\
      exists u c rest',
        (if escaped then "\"%char :: rest else rest) =
          escape u ++ "\"%char :: c :: rest' /\
        needsEscape c = false /\
        n = i + len (escape u) + 1 - (if escaped then 1 else 0)
  | Done (k, _, false) =>
      k = i + len rest /\
      exists u,
        (if escaped then "\"%char :: rest else rest) = escape u \/
        (if escaped then "\"%char :: rest else rest) = escape u ++ ["\"%char]
  | Done (_, _, true) => True
  end.
Proof.
  induction rest as [|c rest IH]; intros i buf escaped; simpl.
  - rewrite len_nil. split; [lia|].
    exists []. destruct escaped; simpl; auto.
  - pose proof (len_nonneg rest). rewrite len_cons.
    destruct (Ascii.eqb c "\"%char) eqn:Hb.
    { apply Ascii.eqb_eq in Hb. subst c.
      specialize (IH (i + 1) (if escaped then buf ++ ["\"%char] else buf)
                    (negb escaped)).
      destruct (iterRest _ rest _ _) as [[[v n] e]|[[k b] []]];
        [|exact I|].
      - destruct IH as (-> & -> & u & c & rest' & Heq & Hc & ->).
        split; [reflexivity|]. split; [reflexivity|].
        destruct escaped; simpl in *.
        + exists ("\"%char :: u), c, rest'. simpl. rewrite Heq, !len_cons.
          split; [reflexivity|]. split; [assumption|lia].
        + exists u, c, rest'. split; [assumption|].
          split; [assumption|lia].
      - destruct IH as (-> & u & Heq). split; [lia|].
        destruct escaped; simpl in *.
        + exists ("\"%char :: u). simpl.
          destruct Heq as [-> | ->]; auto.
        + exists u. exact Heq. }
    destruct (Ascii.eqb c "}"%char) eqn:Hc.
    { apply Ascii.eqb_eq in Hc. subst c. destruct escaped; simpl; [|exact I].
      specialize (IH (i + 1) (buf ++ ["}"%char]) false).
      destruct (iterRest _ rest _ _) as [[[v n] e]|[[k b] []]];
        [|exact I|].
      - destruct IH as (-> & -> & u & c & rest' & -> & Hc & ->).
        split; [reflexivity|]. split; [reflexivity|].
        exists ("}"%char :: u), c, rest'. simpl. rewrite !len_cons.
        split; [reflexivity|]. split; [assumption|lia].
      - destruct IH as (-> & u & Heq). split; [lia|].
        exists ("}"%char :: u). simpl. destruct Heq as [-> | ->]; auto. }
    assert (Hplain : needsEscape c = false)
      by (unfold needsEscape; now rewrite Hb, Hc).
    destruct escaped; simpl.
    { split; [reflexivity|]. split; [reflexivity|].
      exists [], c, rest. simpl. rewrite len_nil.
      split; [reflexivity|]. split; [assumption|lia]. }
    specialize (IH (i + 1) (buf ++ [c]) false).
    destruct (iterRest _ rest _ _) as [[[v n] e]|[[k b] []]];
      [|exact I|].
    + destruct IH as (-> & -> & u & c' & rest' & -> & Hc' & ->).
      split; [reflexivity|]. split; [reflexivity|].
      exists (c :: u), c', rest'. simpl. rewrite Hplain, !len_cons.
      split; [reflexivity|]. split; [assumption|lia].
    + destruct IH as (-> & u & Heq). split; [lia|].
      exists (c :: u). simpl. rewrite Hplain.
      destruct Heq as [-> | ->]; auto.
Qed.

Lemma len_escape v : len v <= len (escape v).
Proof.
  induction v as [|c v IH]; simpl; [lia|].
  destruct (needsEscape c); rewrite !len_cons; lia.
Qed.

Lemma unescapedBytes_app a b :
  unescapedBytes (a ++ b) = unescapedBytes a ++ unescapedBytes b.
Proof. unfold unescapedBytes. apply List.filter_app. Qed.

Lemma unescapedBytes_escape v : unescapedBytes (escape v) = unescapedBytes v.
Proof.
  induction v as [|c v IH]; [reflexivity|]. simpl.
  destruct (needsEscape c) eqn:Hc; unfold unescapedBytes in *; simpl;
    rewrite Hc; simpl; now rewrite IH.
Qed.

(** In an escaped text, with or without a backslash left at its end, every
    [}] follows a [\]. *)
Lemma escape_braces_escaped u tail :
  tail = [] \/ tail = ["\"%char] ->
  (escape u ++ tail) !! 0%nat <> Some "}"%char /\
  forall k : nat, (escape u ++ tail) !! S k = Some "}"%char ->
             (escape u ++ tail) !! k = Some "\"%char.
Proof.
  intros Htail. induction u as [|c u [IH0 IH]]; simpl.
  - destruct Htail as [-> | ->]; simpl; (split; [discriminate|]);
      intros k Hk; now destruct k.
  - destruct (needsEscape c) eqn:Hc; simpl.
    + split; [discriminate|]. intros [|[|k]] Hk; simpl in *.
      * reflexivity.
      * contradiction.
      * now apply IH.
    + split.
      { intros [= ->]. discriminate. }
      intros [|k] Hk; simpl in *; [contradiction|now apply IH].
Qed.

(** X3: what a success of [readDefaultValue] means.  The bytes it consumed
    are the returned value escaped as documented, then the closing [}]:
    escaping the value again gives back the text read.  The width exceeds the
    length of the value, stays within [data], and [data[valLen-1]] is the
    closing [}]. *)
Theorem readDefaultValue_success (data v : list ascii) (n : Z) :
  readDefaultValue data = Ret (v, n, None) ->
  take (Z.to_nat n) data = escape v ++ ["}"%char] /\
  len v < n /\ n <= len data /\
  index data (n - 1) = Ret "}"%char.
Proof.
  intros Hread. pose proof (readDefaultValue_inv data) as Hinv.
  rewrite Hread in Hinv. destruct Hinv as (rest & -> & ->).
  pose proof (len_escape v). pose proof (len_nonneg rest).
  pose proof (len_nonneg v).
  split.
  { replace (escape v ++ "}"%char :: rest)
      with ((escape v ++ ["}"%char]) ++ rest) by now rewrite <- app_assoc.
    replace (Z.to_nat (len (escape v) + 1))
      with (length (escape v ++ ["}"%char]))
      by (unfold len; rewrite length_app; simpl; lia).
    apply take_app_length. }
  split; [lia|]. split; [rewrite len_app, len_cons; lia|].
  replace (len (escape v) + 1 - 1) with (len (escape v)) by lia.
  apply index_app.
Qed.

Lemma readDefaultValue_success_witness :
  readDefaultValue (bs "{this\} is a {value\}} more") =
    Ret (bs "{this} is a {value}", 22, None) /\
  (take (Z.to_nat 22) (bs "{this\} is a {value\}} more") =
     escape (bs "{this} is a {value}") ++ ["}"%char] /\
   len (bs "{this} is a {value}") < 22 /\
   22 <= len (bs "{this\} is a {value\}} more") /\
   index (bs "{this\} is a {value\}} more") (22 - 1) = Ret "}"%char).
Proof.
  split; [reflexivity|].
  apply (readDefaultValue_success (bs "{this\} is a {value\}} more")
           (bs "{this} is a {value}") 22).
  reflexivity.
Defined.

Lemma readDefaultValue_failure_cases (data v : list ascii) (n : Z) (e : parseErr) :
  readDefaultValue data = Ret (v, n, Some e) ->
  v = [] /\
  (e = errUnterminated /\ n = len data /\
   (exists u, data = escape u \/ data = escape u ++ ["\"%char]) /\
   data !! 0%nat <> Some "}"%char /\
   (forall k : nat, data !! S k = Some "}"%char -> data !! k = Some "\"%char)
   \/
   e = errInvalidEscape /\
   exists u c rest, data = escape u ++ "\"%char :: c :: rest /\
     needsEscape c = false /\ n = len (escape u) + 1).
Proof.
  rewrite readDefaultValue_iterRest. intros [= Hfin].
  pose proof (iterRest_stop data 0 [] false) as Hstop.
  destruct (iterRest 0 data [] false) as [[[v' n'] e']|[[k b] []]];
    simpl in Hfin.
  - injection Hfin as -> -> ->.
    destruct Hstop as (-> & [= <-] & u & c & rest' & -> & Hc & ->).
    split; [reflexivity|]. right. split; [reflexivity|].
    exists u, c, rest'. split; [reflexivity|]. split; [assumption|lia].
  - discriminate.
  - injection Hfin as <- <- <-. destruct Hstop as (-> & u & Heq).
    split; [reflexivity|]. left. split; [reflexivity|].
    split; [reflexivity|]. split; [eauto|].
    destruct Heq as [-> | ->].
    + rewrite <- (app_nil_r (escape u)).
      apply escape_braces_escaped. now left.
    + apply escape_braces_escaped. now right.
Qed.

(** X4: what each failure of [readDefaultValue] means.  It returns no
    value and fails in two ways only.  Unterminated: [data] is an escaped
    text, possibly with one backslash left at its end, the width is its
    length, and every [}] in it follows a [\].  Invalid escape: the width is
    the offset of a byte other than [\] and [}] that follows an unconsumed
    [\] behind an escaped text. *)
Theorem readDefaultValue_failure (data v : list ascii) (n : Z) (e : parseErr) :
  readDefaultValue data = Ret (v, n, Some e) ->
  v = [] /\
  (e = errUnterminated /\ n = len data /\
   (exists u, data = escape u \/ data = escape u ++ ["\"%char]) /\
   data !! 0%nat <> Some "}"%char /\
   (forall k : nat, data !! S k = Some "}"%char -> data !! k = Some "\"%char)
   \/
   e = errInvalidEscape /\
   exists u c rest, data = escape u ++ "\"%char :: c :: rest /\
     needsEscape c = false /\ n = len (escape u) + 1).
Proof. apply readDefaultValue_failure_cases. Qed.

Lemma readDefaultValue_failure_witness :
  readDefaultValue (bs "asdf\}") = Ret ([], 6, Some errUnterminated) /\
  (([] : list ascii) = [] /\
   (errUnterminated = errUnterminated /\ 6 = len (bs "asdf\}") /\
    (exists u, bs "asdf\}" = escape u \/ bs "asdf\}" = escape u ++ ["\"%char])
    /\ bs "asdf\}" !! 0%nat <> Some "}"%char /\
    (forall k : nat, bs "asdf\}" !! S k = Some "}"%char ->
                     bs "asdf\}" !! k = Some "\"%char)
    \/
    errUnterminated = errInvalidEscape /\
    exists u c rest, bs "asdf\}" = escape u ++ "\"%char :: c :: rest /\
      needsEscape c = false /\ 6 = len (escape u) + 1)).
Proof.
  split; [reflexivity|].
  apply (readDefaultValue_failure (bs "asdf\}") [] 6 errUnterminated).
  reflexivity.
Defined.

(** X5: the assertion of the fuzz test on [readDefaultValue].  With every
    [\] and [}] removed, the value returned is a prefix of [data]. *)
Theorem readDefaultValue_stripped_prefix (data v : list ascii) (n : Z) :
  readDefaultValue data = Ret (v, n, None) ->
  unescapedBytes v `prefix_of` unescapedBytes data.
Proof.
  intros Hread. pose proof (readDefaultValue_inv data) as Hinv.
  rewrite Hread in Hinv. destruct Hinv as (rest & -> & _).
  rewrite unescapedBytes_app, unescapedBytes_escape.
  now apply prefix_app_r.
Qed.

Lemma readDefaultValue_stripped_prefix_witness :
  readDefaultValue (bs "as\\\}}f}") = Ret (bs "as\}", 7, None) /\
  unescapedBytes (bs "as\}") `prefix_of` unescapedBytes (bs "as\\\}}f}").
Proof.
  split; [reflexivity|].
  apply (readDefaultValue_stripped_prefix (bs "as\\\}}f}") (bs "as\}") 7).
  reflexivity.
Defined.

(** ** varInfo *)

Lemma index_app_r a b i : 0 <= i -> index (a ++ b) (len a + i) = index b i.
Proof.
  intros Hi. unfold index. rewrite len_app.
  pose proof (len_nonneg a).
  replace (0 <=? len a + i) with (0 <=? i) by lia.
  replace (len a + i <? len a + len b) with (i <? len b) by lia.
  destruct ((0 <=? i) && (i <? len b)); [|reflexivity].
  replace (Z.to_nat (len a + i)) with (length a + Z.to_nat i)%nat
    by (unfold len; lia).
  now rewrite lookup_app_r, Nat.add_comm, Nat.add_sub by lia.
Qed.

Lemma varInfo_success_cases data name defaultValue w :
  varInfo data = Ret (name, defaultValue, w, None) ->
  validName name = true /\
  len name + len defaultValue < w /\ w <= len data /\
  index data (w - 1) = Ret "}"%char /\
  (take (Z.to_nat w) data = name ++ ["}"%char] /\ defaultValue = [] \/
   take (Z.to_nat w) data =
     name ++ "|"%char :: escape defaultValue ++ ["}"%char]).
Proof.
  intros Hvar. pose proof (varInfo_width _ _ _ _ Hvar) as Hw.
  pose proof (varInfo_inv data) as Hinv. rewrite Hvar in Hinv.
  destruct Hinv as (Hname & rest & [(-> & -> & ->) | (-> & ->)]).
  - split; [assumption|]. rewrite len_nil.
    split; [lia|]. split; [lia|]. split.
    + replace (len name + 1 - 1) with (len name) by lia. apply index_app.
    + left. split; [|reflexivity].
      replace (name ++ "}"%char :: rest) with ((name ++ ["}"%char]) ++ rest)
        by now rewrite <- app_assoc.
      replace (Z.to_nat (len name + 1)) with (length (name ++ ["}"%char]))
        by (unfold len; rewrite length_app; simpl; lia).
      apply take_app_length.
  - pose proof (len_escape defaultValue).
    split; [assumption|]. split; [lia|]. split; [lia|]. split.
    + replace (name ++ "|"%char :: escape defaultValue ++ "}"%char :: rest)
        with ((name ++ "|"%char :: escape defaultValue) ++ "}"%char :: rest)
        by now rewrite <- app_assoc.
      replace (len name + 1 + (len (escape defaultValue) + 1) - 1)
        with (len (name ++ "|"%char :: escape defaultValue))
        by (rewrite len_app, len_cons; lia).
      apply index_app.
    + right.
      replace (name ++ "|"%char :: escape defaultValue ++ "}"%char :: rest)
        with ((name ++ "|"%char :: escape defaultValue ++ ["}"%char]) ++ rest)
        by (rewrite <- app_assoc; simpl; now rewrite <- app_assoc).
      replace (Z.to_nat (len name + 1 + (len (escape defaultValue) + 1)))
        with (length (name ++ "|"%char :: escape defaultValue ++ ["}"%char]))
        by (unfold len; rewrite length_app; simpl; rewrite length_app;
            simpl; lia).
      apply take_app_length.
Qed.

(** X6: what a success of [varInfo] means.  The name is well formed; the
    width exceeds the lengths of the name and of the default value together
    and stays within [data]; [data[w-1]] is the closing [}]; and the bytes
    consumed are the name and [}], or the name, [|], the default value
    escaped as documented and [}]. *)
Theorem varInfo_success (data name defaultValue : list ascii) (w : Z) :
  varInfo data = Ret (name, defaultValue, w, None) ->
  validName name = true /\
  len name + len defaultValue < w /\ w <= len data /\
  index data (w - 1) = Ret "}"%char /\
  (take (Z.to_nat w) data = name ++ ["}"%char] /\ defaultValue = [] \/
   take (Z.to_nat w) data =
     name ++ "|"%char :: escape defaultValue ++ ["}"%char]).
Proof. apply varInfo_success_cases. Qed.

Lemma varInfo_success_witness :
  varInfo (bs "FAKE_VAR|hello\\beautiful {world\}} fox") =
    Ret (bs "FAKE_VAR", bs "hello\beautiful {world}", 35, None) /\
  (validName (bs "FAKE_VAR") = true /\
   len (bs "FAKE_VAR") + len (bs "hello\beautiful {world}") < 35 /\
   35 <= len (bs "FAKE_VAR|hello\\beautiful {world\}} fox") /\
   index (bs "FAKE_VAR|hello\\beautiful {world\}} fox") (35 - 1) =
     Ret "}"%char /\
   (take (Z.to_nat 35) (bs "FAKE_VAR|hello\\beautiful {world\}} fox") =
      bs "FAKE_VAR" ++ ["}"%char] /\ bs "hello\beautiful {world}" = [] \/
    take (Z.to_nat 35) (bs "FAKE_VAR|hello\\beautiful {world\}} fox") =
      bs "FAKE_VAR" ++
      "|"%char :: escape (bs "hello\beautiful {world}") ++ ["}"%char])).
Proof.
  split; [reflexivity|].
  apply (varInfo_success (bs "FAKE_VAR|hello\\beautiful {world\}} fox")
           (bs "FAKE_VAR") (bs "hello\beautiful {world}") 35).
  reflexivity.
Defined.

Lemma varInfo_failure_cases data name defaultValue w e :
  varInfo data = Ret (name, defaultValue, w, Some e) ->
  name = [] /\ defaultValue = [] /\ 0 <= w <= len data /\
  match e with
  | errUnterminated => w = len data
  | _ => exists c, index data w = Ret c /\ stoppedAt e c = true
  end.
Proof.
  intros Hvar. pose proof (varInfo_inv data) as Hinv. rewrite Hvar in Hinv.
  destruct Hinv as (-> & -> & Hw).
  split; [reflexivity|]. split; [reflexivity|]. split; [assumption|].
  clear Hw. revert Hvar.
  pose proof (readVarName_inv data) as Hinv.
  destruct (readVarName data) as [[[nm n] [e'|]]| |] eqn:Hread;
    try contradiction.
  - unfold varInfo. rewrite Hread. simpl. intros [= <- <-].
    apply readVarName_failure_cases in Hread as [_ Hcase].
    destruct e'.
    + destruct Hcase as (pre & c & rest & -> & -> & _ & Hd & Hc).
      exists c. rewrite index_app. simpl. now rewrite Hd, Hc.
    + destruct Hcase as (-> & c & rest & -> & Hd & Hc).
      exists c. rewrite index_head. simpl. now rewrite Hd, Hc.
    + now destruct Hcase.
    + destruct Hcase as (-> & c & rest & -> & Hd).
      exists c. now rewrite index_head.
    + contradiction.
  - destruct Hinv as (d & rest & -> & Hd & Hname & ->).
    rewrite varInfo_after_name by assumption.
    apply isDelim_spec in Hd as [-> | ->]; simpl; [discriminate|].
    pose proof (readDefaultValue_inv rest) as Hinv.
    destruct (readDefaultValue rest) as [[[v k] [e'|]]| |] eqn:Hval;
      try contradiction; simpl; [|discriminate].
    intros [= <- <-].
    apply readDefaultValue_failure_cases in Hval as [_ Hcase].
    destruct Hcase as [(-> & -> & _) | (-> & u & c & rest' & -> & Hc & ->)].
    + rewrite len_app, len_cons. lia.
    + exists c. simpl. rewrite Hc. split; [|reflexivity].
      pose proof (len_nonneg (escape u)).
      replace (nm ++ "|"%char :: escape u ++ "\"%char :: c :: rest')
        with ((nm ++ ["|"%char]) ++ escape u ++ "\"%char :: c :: rest')
        by now rewrite <- app_assoc.
      replace (len nm + 1 + (len (escape u) + 1))
        with (len (nm ++ ["|"%char]) + (len (escape u) + 1))
        by (rewrite len_app, len_cons, len_nil; lia).
      rewrite index_app_r by lia.
      replace (escape u ++ "\"%char :: c :: rest')
        with ((escape u ++ ["\"%char]) ++ c :: rest')
        by now rewrite <- app_assoc.
      replace (len (escape u) + 1) with (len (escape u ++ ["\"%char]))
        by (rewrite len_app, len_cons, len_nil; lia).
      apply index_app.
Qed.

(** X7: what a failure of [varInfo] means.  It returns neither name nor
    default value, and a width within [data].  When the cause is
    unterminated the width is the length of [data]; otherwise [data[w]] is
    the byte the parse stopped at: a delimiter in place of a name, a byte
    that cannot start or continue a name, or a byte that cannot follow a
    backslash. *)
Theorem varInfo_failure (data name defaultValue : list ascii) (w : Z)
    (e : parseErr) :
  varInfo data = Ret (name, defaultValue, w, Some e) ->
  name = [] /\ defaultValue = [] /\ 0 <= w <= len data /\
  match e with
  | errUnterminated => w = len data
  | _ => exists c, index data w = Ret c /\ stoppedAt e c = true
  end.
Proof. apply varInfo_failure_cases. Qed.

Lemma varInfo_failure_witness :
  varInfo (bs "hello|w\orld}") = Ret ([], [], 8, Some errInvalidEscape) /\
  (([] : list ascii) = [] /\ ([] : list ascii) = [] /\
   0 <= 8 <= len (bs "hello|w\orld}") /\
   exists c, index (bs "hello|w\orld}") 8 = Ret c /\
     stoppedAt errInvalidEscape c = true).
Proof.
  split; [reflexivity|].
  apply (varInfo_failure (bs "hello|w\orld}") [] [] 8 errInvalidEscape).
  reflexivity.
Defined.

(** ** Expand *)

(** Where a syntax error of [Expand] comes from. *)
Lemma Expand_error_origin {E : Type} `{Environment E} (p : E) tmpl buf b e :
  Expand tmpl p buf = Ret (b, Some e) ->
  b = None /\
  exists pre0 data name defaultValue w,
    tmpl = pre0 ++ "$"%char :: "{"%char :: data /\
    varInfo data = Ret (name, defaultValue, w, Some (err e)) /\
    position e = w + 2 /\
    value e = "$"%char :: "{"%char :: take (Z.to_nat (w + 4)) data.
Proof.
  rewrite Expand_expandAll. intros [= Hfin].
  destruct (expandAll p [] tmpl false buf) as [[b' e']|[[lit' d'] buf']]
    eqn:Hall; simpl in Hfin; [|discriminate].
  injection Hfin as -> ->.
  pose proof (expandAll_Return p _ _ _ _ _ _ Hall) as [-> _].
  split; [reflexivity|].
  apply expandAll_error in Hall; [|discriminate].
  destruct Hall as (pre & data & name & dv & w & -> & Hlast & Hvar & Hpos
                    & Hval).
  simpl in Hlast. apply last_Some in Hlast as [pre0 ->].
  exists pre0, data, name, dv, w. rewrite <- app_assoc. auto.
Qed.

(** X8: the position of a syntax error points at the byte the parse stopped
    at.  The error belongs to a [${] at some index [s] of the [$]; its
    position is at least 2; for an unterminated reference [s + position] is
    the end of the template, and otherwise [tmpl[s + position]] is the
    offending byte. *)
Theorem error_position_points
    {E : Type} `{Environment E} (p : E) (tmpl : list ascii) (buf b : bytes)
    (e : invalidSyntaxErr) :
  Expand tmpl p buf = Ret (b, Some e) ->
  exists s,
    index tmpl s = Ret "$"%char /\ index tmpl (s + 1) = Ret "{"%char /\
    2 <= position e /\ s + position e <= len tmpl /\
    match err e with
    | errUnterminated => s + position e = len tmpl
    | cause =>
        exists c, index tmpl (s + position e) = Ret c /\
          stoppedAt cause c = true
    end.
Proof.
  intros Hrun. apply Expand_error_origin in Hrun as [_ Horigin].
  destruct Horigin as (pre0 & data & name & dv & w & -> & Hvar & Hpos & _).
  apply varInfo_failure_cases in Hvar as (_ & _ & Hw & Hcase).
  exists (len pre0). rewrite Hpos.
  assert (Hlen : len (pre0 ++ "$"%char :: "{"%char :: data) =
                 len pre0 + 2 + len data)
    by (rewrite len_app, !len_cons; lia).
  assert (Hidx : index (pre0 ++ "$"%char :: "{"%char :: data)
                   (len pre0 + (w + 2)) = index data w).
  { replace (pre0 ++ "$"%char :: "{"%char :: data)
      with ((pre0 ++ ["$"%char; "{"%char]) ++ data)
      by now rewrite <- app_assoc.
    replace (len pre0 + (w + 2))
      with (len (pre0 ++ ["$"%char; "{"%char]) + w)
      by (rewrite len_app, !len_cons, len_nil; lia).
    apply index_app_r. lia. }
  split; [apply index_app|].
  split.
  { pose proof (index_app (pre0 ++ ["$"%char]) "{"%char data) as Hi.
    now rewrite len_app, len_cons, len_nil, <- app_assoc in Hi. }
  split; [lia|]. split; [lia|].
  rewrite Hidx, Hlen. destruct (err e); try exact Hcase. lia.
Qed.

Lemma error_position_points_witness :
  Expand (bs "the ${fox*} jumps") emptyEnv None =
    Ret (None,
         Some (mkInvalidSyntaxErr 5 (bs "${fox*} j") errInvalidCharacter)) /\
  exists s,
    index (bs "the ${fox*} jumps") s = Ret "$"%char /\
    index (bs "the ${fox*} jumps") (s + 1) = Ret "{"%char /\
    2 <= 5 /\ s + 5 <= len (bs "the ${fox*} jumps") /\
    exists c, index (bs "the ${fox*} jumps") (s + 5) = Ret c /\
      stoppedAt errInvalidCharacter c = true.
Proof.
  split; [reflexivity|].
  apply (error_position_points emptyEnv (bs "the ${fox*} jumps") None None
           (mkInvalidSyntaxErr 5 (bs "${fox*} j") errInvalidCharacter)).
  reflexivity.
Defined.

(** A reference that parses, behind a prefix the expansion gets through. *)
Lemma Expand_reference {E : Type} `{Environment E} (p : E)
    (pre data name defaultValue : list ascii) (w : Z) (buf b1 : bytes) :
  Expand pre p buf = Ret (b1, None) ->
  last pre <> Some "$"%char ->
  varInfo data = Ret (name, defaultValue, w, None) ->
  Expand (pre ++ "$"%char :: "{"%char :: data) p buf =
  Expand (drop (Z.to_nat w) data) p
    (Some (contents b1 ++
           if snd (LookupEnv p name) then fst (LookupEnv p name)
           else defaultValue)).
Proof.
  intros Hpre Hlast Hvar.
  destruct (Expand_prefix p pre buf b1 Hpre Hlast)
    as (lit' & buf' & Hrun & ->).
  rewrite !Expand_expandAll.
  rewrite (expandAll_app p _ _ _ _ _ _ _ _ Hrun).
  rewrite expandAll_dollar_first, expandAll_ref, Hvar.
  now rewrite removelast_last, allocated_contents, contents_append.
Qed.

Lemma drop_name (name post : list ascii) (c : ascii) :
  drop (Z.to_nat (len name + 1)) (name ++ c :: post) = post.
Proof.
  replace (name ++ c :: post) with ((name ++ [c]) ++ post)
    by now rewrite <- app_assoc.
  replace (Z.to_nat (len name + 1)) with (length (name ++ [c]))
    by (unfold len; rewrite length_app; simpl; lia).
  apply drop_app_length.
Qed.

(** X9: how a reference is resolved.  Behind a prefix the expansion gets
    through, [${name}] appends the value the provider returns for the name,
    and nothing when the provider has none; [${name|default}] appends the
    value when the provider has one, the default value being left out.  The
    text appended is not scanned again: the expansion goes on behind the
    closing brace. *)
Theorem reference_resolved
    {E : Type} `{Environment E} (p : E) (pre post name v : list ascii)
    (buf b1 : bytes) :
  Expand pre p buf = Ret (b1, None) ->
  last pre <> Some "$"%char ->
  validName name = true ->
  Expand (pre ++ bs "${" ++ name ++ "}"%char :: post) p buf =
    Expand post p
      (Some (contents b1 ++
             if snd (LookupEnv p name) then fst (LookupEnv p name) else []))
  /\
  (snd (LookupEnv p name) = true ->
   Expand (pre ++ bs "${" ++ name ++ "|"%char :: escape v ++ "}"%char :: post)
     p buf =
   Expand post p (Some (contents b1 ++ fst (LookupEnv p name)))).
Proof.
  intros Hpre Hlast Hname. split.
  - simpl.
    rewrite (Expand_reference p pre _ name [] (len name + 1) buf b1);
      auto using varInfo_brace.
    now rewrite drop_name.
  - intros Hfound. simpl.
    rewrite (Expand_reference p pre _ name v
               (len name + 1 + (len (escape v) + 1)) buf b1);
      auto using varInfo_pipe.
    now rewrite drop_reference, Hfound.
Qed.

Lemma reference_resolved_witness :
  Expand (bs "cd ") homeEnv None = Ret (Some (bs "cd "), None) /\
  last (bs "cd ") <> Some "$"%char /\
  validName (bs "HOME") = true /\
  (Expand (bs "cd " ++ bs "${" ++ bs "HOME" ++ "}"%char :: bs "/src")
     homeEnv None =
   Expand (bs "/src") homeEnv
     (Some (contents (Some (bs "cd ")) ++
            if snd (LookupEnv homeEnv (bs "HOME"))
            then fst (LookupEnv homeEnv (bs "HOME")) else [])) /\
   (snd (LookupEnv homeEnv (bs "HOME")) = true ->
    Expand
      (bs "cd " ++ bs "${" ++ bs "HOME" ++
       "|"%char :: escape (bs "/tmp/{x}") ++ "}"%char :: bs "/src")
      homeEnv None =
    Expand (bs "/src") homeEnv
      (Some (contents (Some (bs "cd ")) ++
             fst (LookupEnv homeEnv (bs "HOME")))))).
Proof.
  split; [reflexivity|]. split; [discriminate|]. split; [reflexivity|].
  apply (reference_resolved homeEnv (bs "cd ") (bs "/src") (bs "HOME")
           (bs "/tmp/{x}") None (Some (bs "cd "))).
  - reflexivity.
  - discriminate.
  - reflexivity.
Defined.

Lemma Expand_nil {E : Type} `{Environment E} (p : E) buf :
  Expand [] p buf = Ret (buf, None).
Proof.
  rewrite Expand_expandAll, expandAll_nil. simpl. now rewrite append_nil.
Qed.

Lemma reference_lookup (m : MapEnvironment) (key : list ascii) (buf : bytes) :
  validName key = true ->
  Expand (bs "${" ++ key ++ ["}"%char]) m buf =
  Ret (Some (contents buf ++ default [] (m !! key)), None).
Proof.
  intros Hkey.
  pose proof (Expand_reference m [] (key ++ ["}"%char]) key []
                (len key + 1) buf buf) as Href.
  simpl in Href. simpl. rewrite Href.
  - rewrite drop_name, Expand_nil.
    unfold LookupEnv, MapEnvironment_env.
    now destruct (m !! key).
  - apply Expand_nil.
  - discriminate.
  - now apply varInfo_brace.
Qed.

(** X10: a map provider through [Expand].  For a well-formed key,
    ["${key}"] expands to what the map holds for the key and to nothing when
    the key is absent; so it gives back a value just inserted, and nothing
    for a key just deleted. *)
Theorem map_lookup_expanded (m : MapEnvironment) (key val : list ascii)
    (buf : bytes) :
  validName key = true ->
  Expand (bs "${" ++ key ++ ["}"%char]) m buf =
    Ret (Some (contents buf ++ default [] (m !! key)), None) /\
  Expand (bs "${" ++ key ++ ["}"%char]) (<[key := val]> m : MapEnvironment)
    buf = Ret (Some (contents buf ++ val), None) /\
  Expand (bs "${" ++ key ++ ["}"%char]) (delete key m : MapEnvironment) buf =
    Ret (Some (contents buf), None).
Proof.
  intros Hkey.
  assert (Hany : forall m' : MapEnvironment,
    Expand (bs "${" ++ key ++ ["}"%char]) m' buf =
    Ret (Some (contents buf ++ default [] (m' !! key)), None)).
  { intros m'. now apply reference_lookup. }
  split; [apply Hany|]. split.
  - rewrite Hany. unfold MapEnvironment in *. now rewrite lookup_insert_eq.
  - rewrite Hany. unfold MapEnvironment in *.
    rewrite lookup_delete_eq. simpl. now rewrite app_nil_r.
Qed.

Lemma map_lookup_expanded_witness :
  validName (bs "HOME") = true /\
  (Expand (bs "${" ++ bs "HOME" ++ ["}"%char]) emptyEnv (Some (bs "cd ")) =
     Ret (Some (contents (Some (bs "cd ")) ++
                default [] (emptyEnv !! bs "HOME")), None) /\
   Expand (bs "${" ++ bs "HOME" ++ ["}"%char])
     (<[bs "HOME" := bs "/usr/gopher"]> emptyEnv : MapEnvironment)
     (Some (bs "cd ")) =
     Ret (Some (contents (Some (bs "cd ")) ++ bs "/usr/gopher"), None) /\
   Expand (bs "${" ++ bs "HOME" ++ ["}"%char])
     (delete (bs "HOME") emptyEnv : MapEnvironment) (Some (bs "cd ")) =
     Ret (Some (contents (Some (bs "cd "))), None)).
Proof.
  split; [reflexivity|].
  apply (map_lookup_expanded emptyEnv (bs "HOME") (bs "/usr/gopher")
           (Some (bs "cd "))).
  reflexivity.
Defined.

(** The buffer given to [Expand] only shifts what a successful expansion
    returns. *)
Lemma Expand_frame {E : Type} `{Environment E} (p : E) tmpl buf b0 :
  Expand tmpl p None = Ret (b0, None) ->
  exists b, Expand tmpl p buf = Ret (b, None) /\
    contents b = contents buf ++ contents b0.
Proof.
  rewrite !Expand_expandAll. intros [= Hfin].
  apply finishRest_success in Hfin as (lit' & dollar' & buf0 & Hrun & ->).
  assert (Hframe : framed (contents buf) (expandAll p [] tmpl false None)
                     (expandAll p [] tmpl false buf))
    by (apply expandAll_framed; symmetry; apply app_nil_r).
  rewrite Hrun in Hframe.
  destruct (expandAll p [] tmpl false buf) as [res|[[lit2 d2] b2]];
    [contradiction|].
  destruct Hframe as (<- & <- & Hb).
  exists (append b2 lit'). split; [reflexivity|].
  now rewrite !contents_append, Hb, app_assoc.
Qed.

(** X11: expansion of a concatenation.  When [pre] expands without error
    and does not end in [$], expanding [pre ++ post] is expanding [post]
    into the buffer [pre] gave; so the output of [pre ++ post] is the output
    of [pre] followed by the output of [post]. *)
Theorem Expand_concat
    {E : Type} `{Environment E} (p : E) (pre post : list ascii)
    (buf b1 : bytes) :
  Expand pre p buf = Ret (b1, None) ->
  last pre <> Some "$"%char ->
  Expand (pre ++ post) p buf = Expand post p b1 /\
  forall b2, Expand post p None = Ret (b2, None) ->
    exists b, Expand (pre ++ post) p buf = Ret (b, None) /\
      contents b = contents b1 ++ contents b2.
Proof.
  intros Hpre Hlast.
  pose proof (Expand_app p pre post buf b1 Hpre Hlast) as Happ.
  split; [exact Happ|].
  intros b2 Hpost. rewrite Happ. now apply Expand_frame.
Qed.

Lemma Expand_concat_witness :
  Expand (bs "the ${fox_speed} ") foxEnv (Some (bs "> ")) =
    Ret (Some (bs "> the quick "), None) /\
  last (bs "the ${fox_speed} ") <> Some "$"%char /\
  (Expand (bs "the ${fox_speed} " ++ bs "${fox_color|brown} fox") foxEnv
     (Some (bs "> ")) =
   Expand (bs "${fox_color|brown} fox") foxEnv (Some (bs "> the quick ")) /\
   forall b2,
     Expand (bs "${fox_color|brown} fox") foxEnv None = Ret (b2, None) ->
     exists b,
       Expand (bs "the ${fox_speed} " ++ bs "${fox_color|brown} fox") foxEnv
         (Some (bs "> ")) = Ret (b, None) /\
       contents b = contents (Some (bs "> the quick ")) ++ contents b2).
Proof.
  split; [vm_compute; reflexivity|]. split; [discriminate|].
  apply (Expand_concat foxEnv (bs "the ${fox_speed} ")
           (bs "${fox_color|brown} fox") (Some (bs "> "))
           (Some (bs "> the quick "))).
  - vm_compute. reflexivity.
  - discriminate.
Defined.

(** X12: a [$] that is followed by neither [$] nor [{], or that ends the
    template, is kept as it is. *)
Theorem lone_dollar_kept
    {E : Type} `{Environment E} (p : E) (pre post : list ascii) (c : ascii)
    (buf b1 : bytes) :
  Expand pre p buf = Ret (b1, None) ->
  last pre <> Some "$"%char ->
  c <> "$"%char -> c <> "{"%char ->
  Expand (pre ++ "$"%char :: c :: post) p buf =
    Expand post p (append b1 ["$"%char; c]) /\
  Expand (pre ++ ["$"%char]) p buf = Ret (append b1 ["$"%char], None).
Proof.
  intros Hpre Hlast Hc1 Hc2. rewrite !(Expand_app p pre _ buf b1) by auto.
  rewrite !Expand_expandAll. split.
  - rewrite expandAll_dollar_first.
    rewrite expandAll_other by now apply Ascii.eqb_neq.
    f_equal. simpl.
    apply (expandAll_flush p _ post false b1 ["$"%char; c] []);
      [reflexivity|discriminate].
  - now rewrite expandAll_dollar_first, expandAll_nil.
Qed.

Lemma lone_dollar_kept_witness :
  Expand (bs "start") emptyEnv None = Ret (Some (bs "start"), None) /\
  last (bs "start") <> Some "$"%char /\
  "+"%char <> "$"%char /\ "+"%char <> "{"%char /\
  (Expand (bs "start" ++ "$"%char :: "+"%char :: bs "middle$^end$")
     emptyEnv None =
   Expand (bs "middle$^end$") emptyEnv
     (append (Some (bs "start")) ["$"%char; "+"%char]) /\
   Expand (bs "start" ++ ["$"%char]) emptyEnv None =
     Ret (append (Some (bs "start")) ["$"%char], None)).
Proof.
  split; [reflexivity|]. split; [discriminate|].
  split; [discriminate|]. split; [discriminate|].
  apply (lone_dollar_kept emptyEnv (bs "start") (bs "middle$^end$") "+"%char
           None (Some (bs "start"))); [reflexivity|discriminate..].
Defined.

Lemma expandAll_doubleDollars {E : Type} `{Environment E} (p : E) s post :
  forall lit buf,
  finishRest (expandAll p lit (doubleDollars s ++ post) false buf) =
  finishRest (expandAll p [] post false (append buf (lit ++ s))).
Proof.
  induction s as [|c s IH]; intros lit buf; simpl.
  - rewrite app_nil_r.
    apply (expandAll_flush p lit post false buf lit []);
      [now rewrite app_nil_r|discriminate].
  - destruct (Ascii.eqb c "$"%char) eqn:Hd.
    + apply Ascii.eqb_eq in Hd. subst c. simpl.
      rewrite expandAll_dollar_first, expandAll_dollar_second, IH.
      rewrite append_append. simpl. now rewrite <- app_assoc.
    + replace (lit ++ c :: s) with ((lit ++ [c]) ++ s)
        by now rewrite <- app_assoc.
      rewrite <- IH. simpl.
      destruct (Ascii.eqb c "{"%char) eqn:Hb.
      * apply Ascii.eqb_eq in Hb. subst c. now rewrite expandAll_brace.
      * now rewrite expandAll_other.
Qed.

(** X13: doubling the dollars writes literal text.  Any text whose every
    [$] is doubled, as the documentation of [Expand] tells to, expands to
    that text, for every provider and wherever it stands at the head of a
    template; braces, pipes and backslashes in it need no care. *)
Theorem doubled_dollars_expand
    {E : Type} `{Environment E} (p : E) (s post : list ascii) (buf : bytes) :
  Expand (doubleDollars s) p buf = Ret (append buf s, None) /\
  Expand (doubleDollars s ++ post) p buf = Expand post p (append buf s).
Proof.
  assert (Hgen : forall post',
    Expand (doubleDollars s ++ post') p buf = Expand post' p (append buf s)).
  { intros post'. rewrite !Expand_expandAll. f_equal.
    apply expandAll_doubleDollars. }
  split; [|apply Hgen].
  rewrite <- (app_nil_r (doubleDollars s)), Hgen. apply Expand_nil.
Qed.

Lemma expandAll_sameShape {E1 E2 : Type} `{Environment E1} `{Environment E2}
    (p1 : E1) (p2 : E2) :
  forall lit rest dollar b1 b2,
  sameShape (expandAll p1 lit rest dollar b1)
            (expandAll p2 lit rest dollar b2).
Proof.
  apply (expandAll_ind
    (fun lit rest dollar b1 => forall b2,
       sameShape (expandAll p1 lit rest dollar b1)
                 (expandAll p2 lit rest dollar b2))).
  - intros lit dollar b1 b2. rewrite !expandAll_nil. simpl. auto.
  - intros lit rest b1 IH b2. rewrite !expandAll_dollar_first. apply IH.
  - intros lit rest b1 IH b2. rewrite !expandAll_dollar_second. apply IH.
  - intros lit rest b1 IH b2. rewrite !expandAll_brace. apply IH.
  - intros lit rest b1 IH b2. rewrite !expandAll_ref.
    destruct (varInfo rest) as [[[[name dv] w] [e|]]| |];
      [reflexivity|apply IH|unfold sameShape; auto..].
  - intros c lit rest dollar b1 Hc1 Hc2 IH b2.
    rewrite !expandAll_other by assumption. apply IH.
Qed.

(** X14: whether [Expand] fails, and with which error, depends on the
    template alone: neither the provider nor the buffer changes it.  In
    particular a default value is checked even when the provider resolves the
    name. *)
Theorem error_depends_on_template
    {E1 E2 : Type} `{Environment E1} `{Environment E2} (p1 : E1) (p2 : E2)
    (tmpl : list ascii) (buf1 buf2 b : bytes) (e : invalidSyntaxErr) :
  Expand tmpl p1 buf1 = Ret (b, Some e) ->
  Expand tmpl p2 buf2 = Ret (None, Some e).
Proof.
  rewrite !Expand_expandAll. intros [= Hfin].
  pose proof (expandAll_sameShape p1 p2 [] tmpl false buf1 buf2) as Hshape.
  destruct (expandAll p1 [] tmpl false buf1) as [[b' e']|[[l1 d1] c1]]
    eqn:Hall; simpl in Hfin; [|discriminate].
  injection Hfin as -> ->.
  apply expandAll_Return in Hall as [-> _].
  destruct (expandAll p2 [] tmpl false buf2) as [res|[[l2 d2] c2]];
    [|contradiction].
  simpl in Hshape. now subst res.
Qed.

Lemma error_depends_on_template_witness :
  Expand (bs "{${HOME|a\b}}") emptyEnv None =
    Ret (None, Some (mkInvalidSyntaxErr 9 (bs "${HOME|a\b}}") errInvalidEscape))
  /\
  Expand (bs "{${HOME|a\b}}") homeEnv (Some (bs "kept")) =
    Ret (None, Some (mkInvalidSyntaxErr 9 (bs "${HOME|a\b}}") errInvalidEscape)).
Proof.
  split; [reflexivity|].
  apply (error_depends_on_template emptyEnv homeEnv (bs "{${HOME|a\b}}") None
           (Some (bs "kept")) None).
  reflexivity.
Defined.

(** X15: a template in which no [$] is followed at once by [{] expands
    without error, whatever the provider and the buffer. *)
Theorem no_reference_no_error
    {E : Type} `{Environment E} (p : E) (tmpl : list ascii) (buf : bytes) :
  (forall pre data, tmpl <> pre ++ "$"%char :: "{"%char :: data) ->
  exists b, Expand tmpl p buf = Ret (b, None).
Proof.
  intros Hno.
  destruct (Expand tmpl p buf) as [[b [e|]]| |] eqn:Hrun.
  - apply Expand_error_origin in Hrun as [_ Horigin].
    destruct Horigin as (pre0 & data & _ & _ & _ & Htmpl & _).
    now apply Hno in Htmpl.
  - eauto.
  - rewrite Expand_expandAll in Hrun. discriminate.
  - rewrite Expand_expandAll in Hrun. discriminate.
Qed.

Lemma no_reference_no_error_witness :
  (forall pre data, bs "a$ {b}$$" <> pre ++ "$"%char :: "{"%char :: data) /\
  exists b, Expand (bs "a$ {b}$$") homeEnv None = Ret (b, None).
Proof.
  assert (Hno : forall pre data,
            bs "a$ {b}$$" <> pre ++ "$"%char :: "{"%char :: data).
  { intros pre data Heq. unfold bs in Heq. simpl in Heq.
    do 8 (destruct pre as [|? pre]; simpl in Heq;
          [discriminate Heq|injection Heq as _ Heq]).
    destruct pre; discriminate Heq. }
  split; [exact Hno|].
  apply (no_reference_no_error homeEnv (bs "a$ {b}$$") None). exact Hno.
Defined.

Lemma expandAll_allocated {E : Type} `{Environment E} (p : E) :
  forall lit rest dollar buf,
  (dollar = true -> lit <> []) ->
  lit <> [] \/ is_Some buf \/ rest <> [] ->
  forall r, finishRest (expandAll p lit rest dollar buf) = (r, None) ->
  is_Some r.
Proof.
  assert (Happ : forall buf lit, lit <> [] \/ is_Some buf ->
            is_Some (append buf lit)).
  { intros [b|] lit [Hlit|[x Hx]]; simpl; eauto; try discriminate.
    destruct lit; [contradiction|eauto]. }
  apply (expandAll_ind
    (fun lit rest dollar buf =>
       (dollar = true -> lit <> []) ->
       lit <> [] \/ is_Some buf \/ rest <> [] ->
       forall r, finishRest (expandAll p lit rest dollar buf) = (r, None) ->
       is_Some r)).
  - intros lit dollar buf _ Hsome r. rewrite expandAll_nil. simpl.
    intros [= <-]. apply Happ. tauto.
  - intros lit rest buf IH _ _ r. rewrite expandAll_dollar_first.
    apply IH; [intros _|left]; now destruct lit.
  - intros lit rest buf IH Hlit _ r. rewrite expandAll_dollar_second.
    apply IH; [discriminate|]. right. left. apply Happ. left. now apply Hlit.
  - intros lit rest buf IH _ _ r. rewrite expandAll_brace.
    apply IH; [discriminate|left; now destruct lit].
  - intros lit rest buf IH _ _ r. rewrite expandAll_ref.
    pose proof (varInfo_inv rest) as Hinv.
    destruct (varInfo rest) as [[[[name dv] w] [e|]]| |];
      try contradiction; [discriminate|].
    apply IH; [discriminate|]. right. left. rewrite allocated_contents.
    simpl. eauto.
  - intros c lit rest dollar buf Hc1 Hc2 IH _ _ r.
    rewrite expandAll_other by assumption.
    apply IH; [discriminate|left; now destruct lit].
Qed.

(** X16: when [Expand] returns nil.  A successful call returns a nil buffer
    only when it was given a nil buffer and an empty template; in particular
    a buffer that was supplied is never lost, and a template made of a
    reference that expands to nothing still returns an allocated buffer. *)
Theorem nil_result_only_for_nothing
    {E : Type} `{Environment E} (p : E) (tmpl : list ascii) (buf r : bytes) :
  Expand tmpl p buf = Ret (r, None) ->
  (r = None <-> buf = None /\ tmpl = []).
Proof.
  intros Hrun. split.
  - intros ->. rewrite Expand_expandAll in Hrun. injection Hrun as Hfin.
    destruct buf as [b|], tmpl as [|c tmpl]; auto; exfalso;
      (eapply is_Some_None, (expandAll_allocated p); [| |exact Hfin];
       [discriminate|]); [right; left; eauto..|right; right; discriminate].
  - intros [-> ->]. rewrite Expand_nil in Hrun. now injection Hrun as <-.
Qed.

Lemma nil_result_only_for_nothing_witness :
  Expand (bs "${x}") emptyEnv None = Ret (Some [], None) /\
  (Some [] = (None : bytes) <-> (None : bytes) = None /\ bs "${x}" = []).
Proof.
  split; [reflexivity|].
  apply (nil_result_only_for_nothing emptyEnv (bs "${x}") None (Some [])).
  reflexivity.
Defined.

(** ** What follows a reference *)

Lemma take_name (name post : list ascii) (c : ascii) :
  take (Z.to_nat (len name + 1)) (name ++ c :: post) = name ++ [c].
Proof.
  replace (name ++ c :: post) with ((name ++ [c]) ++ post)
    by now rewrite <- app_assoc.
  replace (Z.to_nat (len name + 1)) with (length (name ++ [c]))
    by (unfold len; rewrite length_app; simpl; lia).
  apply take_app_length.
Qed.

Lemma take_reference (name mid post : list ascii) (c d : ascii) :
  take (Z.to_nat (len name + 1 + (len mid + 1)))
    (name ++ c :: mid ++ d :: post) = name ++ c :: mid ++ [d].
Proof.
  replace (name ++ c :: mid ++ d :: post)
    with ((name ++ c :: mid ++ [d]) ++ post)
    by (rewrite <- app_assoc; simpl; now rewrite <- app_assoc).
  replace (Z.to_nat (len name + 1 + (len mid + 1)))
    with (length (name ++ c :: mid ++ [d])).
  - apply take_app_length.
  - unfold len. rewrite length_app. simpl. rewrite length_app. simpl. lia.
Qed.

(** X17: a successful parse by [varInfo] depends on the bytes it consumed
    only: with anything else behind those [w] bytes it returns the same
    name, default value and width. *)
Theorem varInfo_local (data rest name defaultValue : list ascii) (w : Z) :
  varInfo data = Ret (name, defaultValue, w, None) ->
  varInfo (take (Z.to_nat w) data ++ rest) =
  Ret (name, defaultValue, w, None).
Proof.
  intros Hvar. pose proof (varInfo_inv data) as Hinv. rewrite Hvar in Hinv.
  destruct Hinv as (Hname & rest0 & [(-> & -> & ->) | (-> & ->)]).
  - rewrite take_name, <- app_assoc. simpl. now apply varInfo_brace.
  - rewrite take_reference, <- app_assoc. simpl. rewrite <- app_assoc. simpl.
    now apply varInfo_pipe.
Qed.

Lemma varInfo_local_witness :
  varInfo (bs "fox_color|brown} fox") =
    Ret (bs "fox_color", bs "brown", 16, None) /\
  varInfo (take (Z.to_nat 16) (bs "fox_color|brown} fox") ++ bs "${x") =
    Ret (bs "fox_color", bs "brown", 16, None).
Proof.
  split; [reflexivity|].
  apply (varInfo_local (bs "fox_color|brown} fox") (bs "${x")
           (bs "fox_color") (bs "brown") 16).
  reflexivity.
Defined.

(** X18: the assertion of the fuzz test on an unterminated reference.  When
    [varInfo] fails as unterminated, [data] does not start with [}] and
    every [}] in it follows a [\]. *)
Theorem varInfo_unterminated (data name defaultValue : list ascii) (w : Z) :
  varInfo data = Ret (name, defaultValue, w, Some errUnterminated) ->
  data !! 0%nat <> Some "}"%char /\
  forall k : nat, data !! S k = Some "}"%char -> data !! k = Some "\"%char.
Proof.
  pose proof (readVarName_inv data) as Hinv.
  destruct (readVarName data) as [[[nm n] [e'|]]| |] eqn:Hread;
    try contradiction.
  - unfold varInfo. rewrite Hread. simpl. intros [= _ _ _ ->].
    apply readVarName_failure_cases in Hread as (_ & _ & _ & Hnodelim).
    assert (Hno : forall k : nat, data !! k <> Some "}"%char).
    { intros k Hk. apply list_elem_of_lookup_2, Hnodelim in Hk.
      discriminate. }
    split; [apply Hno|]. intros k Hk. now apply Hno in Hk.
  - destruct Hinv as (d & rest & -> & Hd & Hname & ->).
    rewrite varInfo_after_name by assumption.
    apply isDelim_spec in Hd as [-> | ->]; simpl; [discriminate|].
    pose proof (readDefaultValue_inv rest) as Hinv.
    destruct (readDefaultValue rest) as [[[v k] [e'|]]| |] eqn:Hval;
      try contradiction; simpl; [|discriminate].
    intros [= _ _ _ ->].
    apply readDefaultValue_failure_cases in Hval as [_ Hcase].
    destruct Hcase as [(_ & _ & _ & Hrest0 & Hrest)|[[=] _]].
    assert (Hnm : forall j : nat, nm !! j <> Some "}"%char).
    { intros j Hj. apply list_elem_of_lookup_2 in Hj.
      now apply (validName_no_delim nm) in Hj. }
    assert (Hlen : (0 < length nm)%nat)
      by (destruct nm; [discriminate|simpl; lia]).
    split.
    + rewrite lookup_app_l by lia. apply Hnm.
    + intros j Hj.
      destruct (decide (S j < length nm)%nat) as [Hlt|Hge].
      { rewrite lookup_app_l in Hj by lia. now apply Hnm in Hj. }
      rewrite lookup_app_r in Hj by lia.
      destruct (S j - length nm)%nat as [|[|i]] eqn:Hi; simpl in Hj.
      * discriminate.
      * contradiction.
      * apply Hrest in Hj. rewrite lookup_app_r by lia.
        replace (j - length nm)%nat with (S i) by lia. exact Hj.
Qed.

Lemma varInfo_unterminated_witness :
  varInfo (bs "asdf|jkl\}") = Ret ([], [], 10, Some errUnterminated) /\
  (bs "asdf|jkl\}" !! 0%nat <> Some "}"%char /\
   forall k : nat, bs "asdf|jkl\}" !! S k = Some "}"%char ->
                   bs "asdf|jkl\}" !! k = Some "\"%char).
Proof.
  split; [reflexivity|].
  apply (varInfo_unterminated (bs "asdf|jkl\}") [] [] 10). reflexivity.
Defined.
